(** * vue-scrollactive: a shallow embedding of the component and its properties

    The repository holds two copies of the [scrollactive] component.
    [src/scrollactive.vue] determines the current item by band membership
    (module [Band]); the second copy determines it by a threshold scan
    (module [Threshold]).  What both copies share textually ([getOffsetTop],
    [setScrollactiveItems], the body of [step] up to [window.scrollTo], the
    hooks) is defined once, before the two modules.

    Numbers: element geometry ([offsetTop], [clientHeight]) is integral in
    the DOM and is modelled in [Z]; scroll positions, timestamps and the
    numeric props are modelled as exact rationals [Q].  The quotient
    [progress / vm.duration] is only meaningful for a non-zero duration (in
    JavaScript a zero duration yields NaN or an infinity, and the value of
    the easing library there is not specified), so the theorems about where
    an animation lands assume [0 < duration].  One component instance is
    modelled, with props that do not change during a call. *)

From Stdlib Require Import QArith ZArith Lia Lqa Ascii String Sorted.
From stdpp Require Import base gmap list strings.

Local Open Scope Z_scope.

(** ** The DOM as the component sees it *)

(** A section element: its geometry and its chain of offset parents.  The
    chain of a real element is finite, which the inductive type records. *)
#[local] Unset Elimination Schemes.
Inductive Element : Type :=
  mkElement (top height : Z) (parent : option Element).
#[local] Set Elimination Schemes.

(** Induction along the chain of offset parents. *)
Fixpoint Element_chain_ind (P : Element → Prop)
    (Hend : ∀ t h, P (mkElement t h None))
    (Hstep : ∀ t h p, P p → P (mkElement t h (Some p)))
    (e : Element) : P e :=
  match e with
  | mkElement t h None => Hend t h
  | mkElement t h (Some p) => Hstep t h p (Element_chain_ind P Hend Hstep p)
  end.

Definition offsetTop (e : Element) : Z :=
  match e with mkElement t _ _ => t end.

Definition clientHeight (e : Element) : Z :=
  match e with mkElement _ h _ => h end.

Definition offsetParent (e : Element) : option Element :=
  match e with mkElement _ _ p => p end.

(** A navigation item (an anchor node).  Nodes are mutable and shared: they
    live in the world's node store and are referred to by their index, which
    is also their position in document order. *)
Record Anchor : Type := mkAnchor {
  hash : string;
  classList : gset string;
  inDocument : bool;
  clickBound : bool   (* the component's click handler is among the listeners *)
}.

Global Instance Anchor_inhabited : Inhabited Anchor :=
  populate (mkAnchor EmptyString ∅ false false).

(** A reference to an item as JavaScript holds it. *)
Inductive ItemRef : Type :=
| null
| undefined
| item (i : nat).

Global Instance ItemRef_eq_dec : EqDecision ItemRef.
Proof. solve_decision. Defined.

(** [if (ref)]: only node references are truthy. *)
Definition truthy (r : ItemRef) : bool :=
  match r with item _ => true | _ => false end.

(** The argument of a handler. *)
Inductive Event : Type :=
| NoEvent                         (* called without argument *)
| ScrollEvent
| ClickEvent (currentTarget : nat).

(** An argument of the public method [scrollToTarget]. *)
Inductive JsValue : Type :=
| VUndefined
| VNull
| VBool (b : bool)
| VNumber (q : Q)
| VString (s : string).

Inductive Error : Type :=
| mkError (message : string)      (* [new Error(message)] *)
| TypeError.                      (* a property read on null *)

(** The props of the component. *)
Record Props : Type := mkProps {
  activeClass : string;
  offset : Q;
  clickToScroll : bool;
  duration : Q;
  alwaysTrack : bool;
  bezierEasingValue : string
}.

(** The variables captured by one [step] closure. *)
Record Closure : Type := mkClosure {
  startingY : Q;
  difference : Q;
  easing : Q → Q;
  start : option Q
}.

(** Calls made to the environment, oldest first. *)
Inductive Effect : Type :=
| Emit (event : Event) (items : list ItemRef)   (* [$emit('itemchanged', ...)] *)
| ScrollTo (y : Q)
| PreventDefault
| ConsoleLog (s : string)
| AddScrollListener
| RemoveScrollListener
| RequestAnimationFrame (handle : nat)
| CancelAnimationFrame (handle : option nat)
| SetTimeout (ms : nat).

(** The type of the easing library's constructor as the component calls it:
    four entries of [cubicBezierArray] (an entry may be missing), and either
    an easing function or an exception. *)
Definition BezierEasing : Type :=
  option string → option string → option string → option string →
  option (Q → Q).

Record World : Type := mkWorld {
  nodes : list Anchor;
  elements : list (string * Element);   (* id and element, document order *)
  scrollY : Q;                          (* [window.scrollY], [window.pageYOffset] *)
  maxScrollY : Q;                       (* the scrollable range is [0, maxScrollY] *)
  scrollListener : bool;                (* [vm.onScroll] listens to 'scroll' *)
  AFRequestID : option nat;             (* [window.AFRequestID] *)
  frames : list (nat * Closure);        (* scheduled animation-frame callbacks *)
  nextHandle : nat;
  timers : nat;                         (* pending re-attach timeouts *)
  scrollactiveItems : option (list nat);
  bezierEasing : BezierEasing;
  lastActiveItem : ItemRef;
  log : list Effect
}.

Definition set_nodes (f : list Anchor → list Anchor) (w : World) : World :=
  mkWorld (f (nodes w)) (elements w) (scrollY w) (maxScrollY w) (scrollListener w)
    (AFRequestID w) (frames w) (nextHandle w) (timers w)
    (scrollactiveItems w) (bezierEasing w) (lastActiveItem w) (log w).

Definition set_scrollY (y : Q) (w : World) : World :=
  mkWorld (nodes w) (elements w) y (maxScrollY w) (scrollListener w)
    (AFRequestID w) (frames w) (nextHandle w) (timers w)
    (scrollactiveItems w) (bezierEasing w) (lastActiveItem w) (log w).

Definition set_scrollListener (b : bool) (w : World) : World :=
  mkWorld (nodes w) (elements w) (scrollY w) (maxScrollY w) b
    (AFRequestID w) (frames w) (nextHandle w) (timers w)
    (scrollactiveItems w) (bezierEasing w) (lastActiveItem w) (log w).

Definition set_AFRequestID (h : option nat) (w : World) : World :=
  mkWorld (nodes w) (elements w) (scrollY w) (maxScrollY w) (scrollListener w)
    h (frames w) (nextHandle w) (timers w)
    (scrollactiveItems w) (bezierEasing w) (lastActiveItem w) (log w).

Definition set_frames (f : list (nat * Closure) → list (nat * Closure))
    (w : World) : World :=
  mkWorld (nodes w) (elements w) (scrollY w) (maxScrollY w) (scrollListener w)
    (AFRequestID w) (f (frames w)) (nextHandle w) (timers w)
    (scrollactiveItems w) (bezierEasing w) (lastActiveItem w) (log w).

Definition set_nextHandle (n : nat) (w : World) : World :=
  mkWorld (nodes w) (elements w) (scrollY w) (maxScrollY w) (scrollListener w)
    (AFRequestID w) (frames w) n (timers w)
    (scrollactiveItems w) (bezierEasing w) (lastActiveItem w) (log w).

Definition set_timers (n : nat) (w : World) : World :=
  mkWorld (nodes w) (elements w) (scrollY w) (maxScrollY w) (scrollListener w)
    (AFRequestID w) (frames w) (nextHandle w) n
    (scrollactiveItems w) (bezierEasing w) (lastActiveItem w) (log w).

Definition set_scrollactiveItems (l : option (list nat)) (w : World) : World :=
  mkWorld (nodes w) (elements w) (scrollY w) (maxScrollY w) (scrollListener w)
    (AFRequestID w) (frames w) (nextHandle w) (timers w)
    l (bezierEasing w) (lastActiveItem w) (log w).

Definition set_lastActiveItem (r : ItemRef) (w : World) : World :=
  mkWorld (nodes w) (elements w) (scrollY w) (maxScrollY w) (scrollListener w)
    (AFRequestID w) (frames w) (nextHandle w) (timers w)
    (scrollactiveItems w) (bezierEasing w) r (log w).

Definition tell (e : Effect) (w : World) : World :=
  mkWorld (nodes w) (elements w) (scrollY w) (maxScrollY w) (scrollListener w)
    (AFRequestID w) (frames w) (nextHandle w) (timers w)
    (scrollactiveItems w) (bezierEasing w) (lastActiveItem w) (log w ++ [e]).

(** ** Computations: state passing with exceptions

    A thrown exception keeps the world as it was when it was thrown. *)
Inductive Outcome (A : Type) : Type :=
| Returned (a : A) (w : World)
| Thrown (e : Error) (w : World).
Arguments Returned {A} a w.
Arguments Thrown {A} e w.

Definition Js (A : Type) : Type := World → Outcome A.

Definition world_of {A} (o : Outcome A) : World :=
  match o with Returned _ w => w | Thrown _ w => w end.

Definition returns {A} (o : Outcome A) : bool :=
  match o with Returned _ _ => true | Thrown _ _ => false end.

Global Instance Js_ret : MRet Js := λ A a w, Returned a w.

Global Instance Js_bind : MBind Js := λ A B f m w,
  match m w with
  | Returned a w' => f a w'
  | Thrown e w' => Thrown e w'
  end.

Definition throw {A} (e : Error) : Js A := λ w, Thrown e w.
Definition gets {A} (f : World → A) : Js A := λ w, Returned (f w) w.
Definition modify (f : World → World) : Js unit := λ w, Returned tt (f w).

(** [list.forEach(callback)] with a local variable threaded through. *)
Fixpoint forEach_with {A} (l : list nat) (body : A → nat → Js A) (a : A) : Js A :=
  match l with
  | [] => mret a
  | x :: l' => a' ← body a x; forEach_with l' body a'
  end.

Definition forEach (l : list nat) (body : nat → Js unit) : Js unit :=
  forEach_with l (λ _ x, body x) tt.

(** ** DOM and window primitives *)

Definition node (w : World) (i : nat) : Anchor := nodes w !!! i.

Definition update_node (i : nat) (f : Anchor → Anchor) : Js unit :=
  modify (set_nodes (λ ns, <[i := f (ns !!! i)]> ns)).

Definition classList_remove (i : nat) (c : string) : Js unit :=
  update_node i (λ a,
    mkAnchor (hash a) (classList a ∖ {[c]}) (inDocument a) (clickBound a)).

Definition classList_add (i : nat) (c : string) : Js unit :=
  update_node i (λ a,
    mkAnchor (hash a) ({[c]} ∪ classList a) (inDocument a) (clickBound a)).

Definition set_clickBound (b : bool) (i : nat) : Js unit :=
  update_node i (λ a, mkAnchor (hash a) (classList a) (inDocument a) b).

Definition hasClass (w : World) (i : nat) (c : string) : bool :=
  bool_decide (c ∈ classList (node w i)).

(** [document.getElementById]: the first element with that id, or null.  An
    empty string is not an id, so nothing is found for it. *)
Fixpoint first_with_id (id : string) (els : list (string * Element)) : option Element :=
  match els with
  | [] => None
  | (k, e) :: els' => if decide (k = id) then Some e else first_with_id id els'
  end.

Definition lookup_id (id : string) (els : list (string * Element)) : option Element :=
  if decide (id = EmptyString) then None else first_with_id id els.

Definition getElementById (id : string) : Js (option Element) :=
  gets (λ w, lookup_id id (elements w)).

(** [document.querySelectorAll('.scrollactive-item')]. *)
Definition matches_item (a : Anchor) : bool :=
  inDocument a && bool_decide ("scrollactive-item" ∈ classList a).

Fixpoint select_from (i : nat) (ns : list Anchor) : list nat :=
  match ns with
  | [] => []
  | a :: ns' =>
      if matches_item a then i :: select_from (S i) ns' else select_from (S i) ns'
  end.

Definition querySelectorAll_items : Js (list nat) :=
  gets (λ w, select_from 0 (nodes w)).

(** [string.substr(1)]. *)
Definition substr1 (s : string) : string :=
  match s with
  | EmptyString => EmptyString
  | String _ r => r
  end.

(** [window.scrollTo(0, y)]: the browser keeps the position inside the
    scrollable range; the log keeps the argument. *)
Definition clamp_scroll (w : World) (y : Q) : Q :=
  if Qle_bool y 0 then 0%Q
  else if Qle_bool (maxScrollY w) y then maxScrollY w else y.

Definition window_scrollTo (y : Q) : Js unit :=
  modify (λ w, tell (ScrollTo y) (set_scrollY (clamp_scroll w y) w)).

Definition addScrollListener : Js unit :=
  modify (λ w, tell AddScrollListener (set_scrollListener true w)).

Definition removeScrollListener : Js unit :=
  modify (λ w, tell RemoveScrollListener (set_scrollListener false w)).

Definition drop_frame (h : option nat) (fs : list (nat * Closure)) : list (nat * Closure) :=
  match h with
  | None => fs
  | Some n => filter (λ f, f.1 ≠ n) fs
  end.

Definition cancelAnimationFrame (h : option nat) : Js unit :=
  modify (λ w, tell (CancelAnimationFrame h) (set_frames (drop_frame h) w)).

Definition requestAnimationFrame (c : Closure) : Js nat :=
  λ w, let h := nextHandle w in
       Returned h (tell (RequestAnimationFrame h)
                     (set_nextHandle (S h) (set_frames (λ fs, fs ++ [(h, c)]) w))).

Definition setTimeout_reattach (ms : nat) : Js unit :=
  modify (λ w, tell (SetTimeout ms) (set_timers (S (timers w)) w)).

Definition emit_itemchanged (ev : Event) (items : list ItemRef) : Js unit :=
  modify (tell (Emit ev items)).

(** ** getOffsetTop

    The while loop, with [yPosition] as accumulator. *)
Fixpoint getOffsetTop_loop (yPosition : Z) (nextElement : Element) : Z :=
  match nextElement with
  | mkElement t _ None => yPosition + t
  | mkElement t _ (Some p) => getOffsetTop_loop (yPosition + t) p
  end.

Definition getOffsetTop (element : option Element) : Z :=
  match element with
  | None => 0
  | Some e => getOffsetTop_loop 0 e
  end.

(** The chain [element, element.offsetParent, ...] of the specification. *)
Fixpoint offset_chain_from (e : Element) : list Element :=
  match e with
  | mkElement _ _ None => [e]
  | mkElement _ _ (Some p) => e :: offset_chain_from p
  end.

Definition offset_chain (element : option Element) : list Element :=
  match element with
  | None => []
  | Some e => offset_chain_from e
  end.

Definition sum_offsetTop (chain : list Element) : Z :=
  foldr (λ e acc, offsetTop e + acc) 0 chain.


(** ** Parts of the component that both copies share *)

Local Open Scope Q_scope.

(** [string.split(',')]. *)
Fixpoint split_on (sep : ascii) (s : string) : list string :=
  match s with
  | EmptyString => [EmptyString]
  | String c r =>
      if decide (c = sep) then EmptyString :: split_on sep r
      else match split_on sep r with
           | [] => [String c EmptyString]
           | x :: xs => String c x :: xs
           end
  end.

Definition cubicBezierArray (p : Props) : list string :=
  split_on ","%char (bezierEasingValue p).

(** [vm.bezierEasing(cubicBezierArray[0], ..., cubicBezierArray[3])]. *)
Definition build_easing (p : Props) : Js (Q → Q) := λ w,
  let a := cubicBezierArray p in
  match bezierEasing w (a !! 0%nat) (a !! 1%nat) (a !! 2%nat) (a !! 3%nat) with
  | Some f => Returned f w
  | None => Thrown (mkError "bezier x values must be in [0, 1] range") w
  end.

Definition Qlt_bool (x y : Q) : bool := negb (Qle_bool y x).

(** What one call of [step] computes before it writes the position: the
    lines from [if (!start) start = timestamp] to [const perTick = ...], the
    same in both copies. *)
Record Tick : Type := mkTick {
  tick_start : Q;
  tick_progress : Q;
  tick_progressPercentage : Q;
  tick_perTick : Q
}.

Definition tick (p : Props) (c : Closure) (timestamp : Q) : Tick :=
  let start :=
    match start c with
    | None => timestamp
    | Some s => if Qeq_bool s 0 then timestamp else s
    end in
  let progress := timestamp - start in
  let progressPercentage := progress / duration p in
  let progress := if Qle_bool (duration p) progress then duration p else progress in
  let progressPercentage :=
    if Qle_bool 1 progressPercentage then 1 else progressPercentage in
  let perTick := startingY c + easing c progressPercentage * (difference c - offset p) in
  mkTick start progress progressPercentage perTick.

Definition restart (c : Closure) (start : Q) : Closure :=
  mkClosure (startingY c) (difference c) (easing c) (Some start).

Definition not_found_message (h : string) : string :=
  "Element '" +:+ h +:+ "' was not found. Make sure it is set in the DOM.".

(** [this.scrollactiveItems.forEach]: a null list has no [forEach]. *)
Definition registered_items : Js (list nat) := λ w,
  match scrollactiveItems w with
  | Some l => Returned l w
  | None => Thrown TypeError w
  end.

Definition setScrollactiveItems (p : Props) : Js unit :=
  scrollactiveItems ← querySelectorAll_items;
  forEach scrollactiveItems (λ scrollactiveItem,
    h ← gets (λ w, hash (node w scrollactiveItem));
    target ← getElementById (substr1 h);
    match target with
    | None => throw (mkError (not_found_message h))
    | Some _ => mret tt
    end);;
  modify (set_scrollactiveItems (Some scrollactiveItems));;
  if clickToScroll p
  then forEach scrollactiveItems (set_clickBound true)
  else forEach scrollactiveItems (set_clickBound false).

Definition updated (p : Props) : Js unit := setScrollactiveItems p.

Definition beforeDestroy (p : Props) : Js unit :=
  removeScrollListener;;
  h ← gets AFRequestID;
  cancelAnimationFrame h.

(** The environment runs the scheduled callback [h]. *)
Definition run_frame (step : Closure → Q → Js unit) (h : nat) (timestamp : Q) : Js unit :=
  λ w,
  match list_find (λ f, f.1 = h) (frames w) with
  | Some (_, (_, c)) => step c timestamp (set_frames (drop_frame (Some h)) w)
  | None => Returned tt w
  end.

(** The environment fires one pending timeout of the component. *)
Definition run_timeout : Js unit := λ w,
  match timers w with
  | O => Returned tt w
  | S n => addScrollListener (set_timers n w)
  end.

(** The user scrolls to [y]; the listener, if attached, is notified. *)
Definition user_scroll (onScroll : Event → Js unit) (y : Q) : Js unit := λ w,
  let w' := set_scrollY y w in
  if scrollListener w' then onScroll ScrollEvent w' else Returned tt w'.

(** The user clicks item [i]; the handler, if bound, is called. *)
Definition user_click (handler : Event → Js unit) (i : nat) : Js unit := λ w,
  if clickBound (node w i) then handler (ClickEvent i) w else Returned tt w.

(** ** [src/scrollactive.vue]: band membership *)
Module Band.

Definition getCurrentItem (p : Props) : Js ItemRef :=
  distanceFromTop ← gets scrollY;
  items ← registered_items;
  forEach_with items (λ currentItem scrollactiveItem,
    h ← gets (λ w, hash (node w scrollactiveItem));
    let targetId := substr1 h in
    target ← getElementById targetId;
    classList_remove scrollactiveItem (activeClass p);;
    let targetInViewTop := inject_Z (getOffsetTop target) - offset p in
    match target with
    | None => throw TypeError                 (* [target.clientHeight] *)
    | Some t =>
        let targetInViewBottom := targetInViewTop + inject_Z (clientHeight t) in
        let targetIsInView :=
          Qle_bool targetInViewTop distanceFromTop
          && Qlt_bool distanceFromTop targetInViewBottom in
        mret (if targetIsInView then item scrollactiveItem else currentItem)
    end) null.

Definition onScroll (p : Props) (event : Event) : Js unit :=
  currentItem ← getCurrentItem p;
  modify (tell (ConsoleLog "scroll"));;
  last ← gets lastActiveItem;
  (if decide (currentItem ≠ last)
   then emit_itemchanged event [currentItem; last];;
        modify (set_lastActiveItem currentItem)
   else mret tt);;
  match currentItem with
  | item i => classList_add i (activeClass p)
  | _ => mret tt
  end.

Definition step (p : Props) (c : Closure) (timestamp : Q) : Js unit :=
  let t := tick p c timestamp in
  window_scrollTo (tick_perTick t);;
  if Qlt_bool (tick_progress t) (duration p)
  then h ← requestAnimationFrame (restart c (tick_start t));
       modify (set_AFRequestID (Some h))
  else if negb (alwaysTrack p)
  then currentItem ← getCurrentItem p;
       match currentItem with
       | item i => classList_add i (activeClass p)
       | _ => mret tt
       end;;
       setTimeout_reattach 100
  else mret tt.

Definition scrollToTarget (p : Props) (targetId : JsValue) : Js unit :=
  match targetId with
  | VString id =>
      target ← getElementById id;
      (if negb (alwaysTrack p)
       then removeScrollListener;;
            h ← gets AFRequestID;
            cancelAnimationFrame h
       else mret tt);;
      let targetDistanceFromTop := getOffsetTop target in
      startingY ← gets scrollY;
      let difference := inject_Z targetDistanceFromTop - startingY in
      easing ← build_easing p;
      _ ← requestAnimationFrame (mkClosure startingY difference easing None);
      mret tt
  | _ => throw (mkError "scrollToTarget method requires a DOM Id as parameter.")
  end.

Definition itemClickHandler (p : Props) (event : Event) : Js unit :=
  match event with
  | ClickEvent it =>
      modify (tell PreventDefault);;
      h ← gets (λ w, hash (node w it));
      let targetId := substr1 h in
      scrollToTarget p (VString targetId);;
      emit_itemchanged event [item it]
  | _ => throw TypeError
  end.

Definition mounted (p : Props) : Js unit :=
  setScrollactiveItems p;;
  onScroll p NoEvent;;
  addScrollListener.

End Band.

(** ** The second copy: threshold scan *)
Module Threshold.

Definition onScroll (p : Props) (event : Event) : Js unit :=
  distanceFromTop ← gets scrollY;
  items ← registered_items;
  currentItem ← forEach_with items (λ currentItem scrollactiveItem,
    classList_remove scrollactiveItem (activeClass p);;
    h ← gets (λ w, hash (node w scrollactiveItem));
    target ← getElementById (substr1 h);
    mret (if Qle_bool (inject_Z (getOffsetTop target) - offset p) distanceFromTop
          then item scrollactiveItem else currentItem)) undefined;
  last ← gets lastActiveItem;
  (if decide (currentItem ≠ last)
   then (if truthy last
         then emit_itemchanged event [currentItem; last]
         else mret tt);;
        modify (set_lastActiveItem currentItem)
   else mret tt);;
  match currentItem with
  | item i => classList_add i (activeClass p)
  | _ => mret tt
  end.

Definition step (p : Props) (c : Closure) (timestamp : Q) : Js unit :=
  let t := tick p c timestamp in
  window_scrollTo (tick_perTick t);;
  if Qlt_bool (tick_progress t) (duration p)
  then h ← requestAnimationFrame (restart c (tick_start t));
       modify (set_AFRequestID (Some h))
  else addScrollListener.

Definition scrollToTargetElement (p : Props) (event : Event) : Js unit :=
  match event with
  | ClickEvent currentTarget =>
      modify (tell PreventDefault);;
      (if negb (alwaysTrack p)
       then removeScrollListener;;
            h ← gets AFRequestID;
            cancelAnimationFrame h;;
            items ← registered_items;
            forEach items (λ scrollactiveItem,
              classList_remove scrollactiveItem (activeClass p));;
            classList_add currentTarget (activeClass p)
       else mret tt);;
      h ← gets (λ w, hash (node w currentTarget));
      target ← getElementById (substr1 h);
      let targetDistanceFromTop := getOffsetTop target in
      startingY ← gets scrollY;
      let difference := inject_Z targetDistanceFromTop - startingY in
      easing ← build_easing p;
      _ ← requestAnimationFrame (mkClosure startingY difference easing None);
      mret tt
  | _ => throw TypeError
  end.

Definition mounted (p : Props) : Js unit :=
  setScrollactiveItems p;;
  onScroll p NoEvent;;
  addScrollListener.

End Threshold.

(** ** Vocabulary of the statements *)

(** The notifications among the calls made so far. *)
Definition is_Emit (e : Effect) : bool :=
  match e with Emit _ _ => true | _ => false end.

Definition emitted (w : World) : list Effect := List.filter is_Emit (log w).

(** The positions passed to [window.scrollTo] so far. *)
Definition written (w : World) : list Q :=
  omap (λ e, match e with ScrollTo y => Some y | _ => None end) (log w).

(** The element an item's hash resolves to. *)
Definition resolve (w : World) (i : nat) : option Element :=
  lookup_id (substr1 (hash (node w i))) (elements w).

(** The band [[itemTop, itemBottom)] of item [i] contains the reference
    position. *)
Definition band_contains (p : Props) (w : World) (i : nat) : Prop :=
  match resolve w i with
  | Some t =>
      let itemTop := inject_Z (getOffsetTop (Some t)) - offset p in
      itemTop <= scrollY w ∧ scrollY w < itemTop + inject_Z (clientHeight t)
  | None => False
  end.

(** The threshold of item [i] is at or before the reference position. *)
Definition threshold_reached (p : Props) (w : World) (i : nat) : Prop :=
  inject_Z (getOffsetTop (resolve w i)) - offset p <= scrollY w.

Global Instance Qle_dec (x y : Q) : Decision (x <= y).
Proof. destruct (Qlt_le_dec y x) as [H|H]; [right; lra | left; exact H]. Defined.

Global Instance Qlt_dec (x y : Q) : Decision (x < y).
Proof. destruct (Qlt_le_dec x y) as [H|H]; [left; exact H | right; lra]. Defined.

Global Instance band_contains_dec p w i : Decision (band_contains p w i).
Proof. unfold band_contains. destruct (resolve w i); apply _. Defined.

Global Instance threshold_reached_dec p w i : Decision (threshold_reached p w i).
Proof. unfold threshold_reached. apply _. Defined.

(** The last item in source order that qualifies. *)
Definition last_qualifying (P : nat → Prop) `{∀ i, Decision (P i)}
    (items : list nat) : option nat :=
  last (filter P items).

(** Item [i] carries the active class. *)
Definition flagged (p : Props) (w : World) (i : nat) : Prop :=
  activeClass p ∈ classList (node w i).

(** The world after [classList.remove(c)] on item [i], and on every item of a
    list. *)
Definition unflag (c : string) (w : World) (i : nat) : World :=
  world_of (classList_remove i c w).

Definition unflag_all (c : string) (items : list nat) (w : World) : World :=
  foldl (unflag c) w items.

(** The positions that the frames of one closure write when they run at the
    given timestamps, up to and including the first completion frame. *)
Fixpoint run_ticks (p : Props) (c : Closure) (timestamps : list Q) : list Q :=
  match timestamps with
  | [] => []
  | ts :: rest =>
      let t := tick p c ts in
      tick_perTick t ::
        (if Qlt_bool (tick_progress t) (duration p)
         then run_ticks p (restart c (tick_start t)) rest
         else [])
  end.

(** ** Worlds and predicates used by the proofs *)

(** The hash of item [i] resolves to no element. *)
Definition unresolved (w : World) (i : nat) : Prop := resolve w i = None.

Global Instance unresolved_dec w i : Decision (unresolved w i).
Proof. unfold unresolved. destruct (resolve w i); [right; discriminate | left; reflexivity]. Defined.

(** The callback of the first [forEach] of [setScrollactiveItems]. *)
Definition validate_item (scrollactiveItem : nat) : Js unit :=
  h ← gets (λ w, hash (node w scrollactiveItem));
  target ← getElementById (substr1 h);
  match target with
  | None => throw (mkError (not_found_message h))
  | Some _ => mret tt
  end.

(** The world after [classList.add(c)] on item [i], and on the current item
    if there is one. *)
Definition flag (c : string) (w : World) (i : nat) : World :=
  world_of (classList_add i c w).

Definition flag_current (c : string) (cur : ItemRef) (w : World) : World :=
  match cur with
  | item i => flag c w i
  | _ => w
  end.

Definition without_class (c : string) (a : Anchor) : Anchor :=
  mkAnchor (hash a) (classList a ∖ {[c]}) (inDocument a) (clickBound a).

Definition with_class (c : string) (a : Anchor) : Anchor :=
  mkAnchor (hash a) ({[c]} ∪ classList a) (inDocument a) (clickBound a).

(** One step of a scan: a qualifying item replaces the current one. *)
Definition choose (q : nat → bool) (cur : ItemRef) (i : nat) : ItemRef :=
  if q i then item i else cur.

(** The callbacks of the scans of [Threshold.onScroll] and of
    [Band.getCurrentItem]. *)
Definition threshold_body (p : Props) (distanceFromTop : Q)
    (currentItem : ItemRef) (scrollactiveItem : nat) : Js ItemRef :=
  classList_remove scrollactiveItem (activeClass p);;
  h ← gets (λ w, hash (node w scrollactiveItem));
  target ← getElementById (substr1 h);
  mret (if Qle_bool (inject_Z (getOffsetTop target) - offset p) distanceFromTop
        then item scrollactiveItem else currentItem).

Definition band_body (p : Props) (distanceFromTop : Q)
    (currentItem : ItemRef) (scrollactiveItem : nat) : Js ItemRef :=
  h ← gets (λ w, hash (node w scrollactiveItem));
  let targetId := substr1 h in
  target ← getElementById targetId;
  classList_remove scrollactiveItem (activeClass p);;
  let targetInViewTop := inject_Z (getOffsetTop target) - offset p in
  match target with
  | None => throw TypeError
  | Some t =>
      let targetInViewBottom := targetInViewTop + inject_Z (clientHeight t) in
      let targetIsInView :=
        Qle_bool targetInViewTop distanceFromTop
        && Qlt_bool distanceFromTop targetInViewBottom in
      mret (if targetIsInView then item scrollactiveItem else currentItem)
  end.

(** The world that a check leaves when its scan computes [cur] in [w1]. *)
Definition Band_after_scan (p : Props) (ev : Event) (cur : ItemRef) (w1 : World) : World :=
  let w2 := tell (ConsoleLog "scroll") w1 in
  let w3 :=
    if decide (cur ≠ lastActiveItem w2)
    then set_lastActiveItem cur (tell (Emit ev [cur; lastActiveItem w2]) w2)
    else w2 in
  flag_current (activeClass p) cur w3.

Definition Threshold_after_scan (p : Props) (ev : Event) (cur : ItemRef) (w1 : World) : World :=
  let last := lastActiveItem w1 in
  let w2 :=
    if decide (cur ≠ last)
    then set_lastActiveItem cur
           (if truthy last then tell (Emit ev [cur; last]) w1 else w1)
    else w1 in
  flag_current (activeClass p) cur w2.

(** [w'] differs from [w] in the node store at most. *)
Definition only_nodes (w w' : World) : Prop :=
  w' = set_nodes (λ _, nodes w') w.

(** The worlds after the window calls of [scrollToTarget]. *)
Definition detach (w : World) : World :=
  tell RemoveScrollListener (set_scrollListener false w).

Definition cancel (w : World) : World :=
  tell (CancelAnimationFrame (AFRequestID w))
    (set_frames (drop_frame (AFRequestID w)) w).

Definition schedule (c : Closure) (w : World) : World :=
  tell (RequestAnimationFrame (nextHandle w))
    (set_nextHandle (S (nextHandle w))
       (set_frames (λ fs, fs ++ [(nextHandle w, c)]) w)).

(** The closure that an animation towards [target] starts with. *)
Definition session (w : World) (target : option Element) (e : Q → Q) : Closure :=
  mkClosure (scrollY w) (inject_Z (getOffsetTop target) - scrollY w) e None.

(** The world after the part of [scrollToTarget] that is guarded by
    [!this.alwaysTrack]. *)
Definition paused (p : Props) (w : World) : World :=
  if alwaysTrack p then w else cancel (detach w).

(** The worlds after [window.scrollTo], after [setTimeout] and after
    [window.addEventListener]. *)
Definition scrolled (y : Q) (w : World) : World :=
  tell (ScrollTo y) (set_scrollY (clamp_scroll w y) w).

Definition deferred (w : World) : World :=
  tell (SetTimeout 100) (set_timers (S (timers w)) w).

Definition attach (w : World) : World :=
  tell AddScrollListener (set_scrollListener true w).

(** The frame at [ts] is the last one of its closure. *)
Definition completes (p : Props) (c : Closure) (ts : Q) : bool :=
  negb (Qlt_bool (tick_progress (tick p c ts)) (duration p)).

(** The world after a frame that schedules its successor. *)
Definition continued (p : Props) (c : Closure) (ts : Q) (w : World) : World :=
  let t := tick p c ts in
  let w1 := scrolled (tick_perTick t) w in
  set_AFRequestID (Some (nextHandle w1)) (schedule (restart c (tick_start t)) w1).

(** The world after the part of [scrollToTargetElement] that is guarded by
    [!this.alwaysTrack]. *)
Definition Threshold_paused (p : Props) (i : nat) (items : list nat) (w : World) : World :=
  if alwaysTrack p then w
  else flag (activeClass p) (unflag_all (activeClass p) items (cancel (detach w))) i.

(** The handles of the scheduled callbacks. *)
Definition outstanding (w : World) : list nat := map fst (frames w).

(** What starting an animation does to the scheduled callbacks and to the
    log, [pre] being the calls made before the guarded part. *)
Definition restarts (p : Props) (pre : list Effect) (w w' : World) : Prop :=
  nextHandle w' = S (nextHandle w)
  ∧ if alwaysTrack p
    then outstanding w' = outstanding w ++ [nextHandle w]
         ∧ log w' = log w ++ pre ++ [RequestAnimationFrame (nextHandle w)]
    else outstanding w' =
           filter (λ h, AFRequestID w ≠ Some h) (outstanding w) ++ [nextHandle w]
         ∧ log w' = log w ++ pre ++
             [RemoveScrollListener; CancelAnimationFrame (AFRequestID w);
              RequestAnimationFrame (nextHandle w)]
         ∧ scrollListener w' = false
         ∧ ((∀ h, h ∈ outstanding w → AFRequestID w = Some h) →
            outstanding w' = [nextHandle w]).

(** The elapsed time that the frame at [ts] computes: [timestamp - start]. *)
Definition elapsed (p : Props) (c : Closure) (ts : Q) : Q :=
  ts - tick_start (tick p c ts).



(** What the closure knows before its next frame, [t] being the timestamp of
    its previous frame if there was one. *)
Definition started_by (c : Closure) (t : Q) : Prop :=
  match start c with
  | None => True
  | Some s => s <= t ∧ (s == 0 → t == 0)
  end.

(** ** Sample worlds *)

(** A stand-in for the easing library, exact where the library returns the
    identity ([mX1 === mY1] and [mX2 === mY2]) and where it rejects missing
    entries.  It does not compute the other curves and answers [None] for
    them; the samples only use it at "0,0,1,1". *)
Definition linear_bezierEasing : BezierEasing := λ mX1 mY1 mX2 mY2,
  match mX1, mY1, mX2, mY2 with
  | Some a, Some b, Some c, Some d =>
      if decide (a = b ∧ c = d) then Some (λ x, x) else None
  | _, _, _, _ => None
  end.

Definition sample_props (track : bool) : Props :=
  mkProps "is-active" 20 true 600 track "0,0,1,1".

Definition sample_anchor (h : string) : Anchor :=
  mkAnchor h {["scrollactive-item"]} true false.

Definition body_element : Element := mkElement 0 2400 None.

(** Three items bound to sections at document offsets 0, 800 and 1600, each
    800 pixels tall; a fresh component instance. *)
Definition sample_world (y : Q) : World :=
  mkWorld
    [sample_anchor "#intro"; sample_anchor "#pricing"; sample_anchor "#contact"]
    [("intro", mkElement 0 800 (Some body_element));
     ("pricing", mkElement 800 800 (Some body_element));
     ("contact", mkElement 1600 800 (Some body_element))]
    y 1800 false None [] 0 0 None linear_bezierEasing null [].

(** The same document with the second section removed. *)
Definition broken_world : World :=
  mkWorld
    [sample_anchor "#intro"; sample_anchor "#pricing"; sample_anchor "#contact"]
    [("intro", mkElement 0 800 (Some body_element));
     ("contact", mkElement 1600 800 (Some body_element))]
    0 1800 false None [] 0 0 None linear_bezierEasing null [].

Definition bound_anchor (h : string) (active : bool) : Anchor :=
  mkAnchor h
    (if active then {["is-active"; "scrollactive-item"]} else {["scrollactive-item"]})
    true true.

Definition sample_elements : list (string * Element) :=
  [("intro", mkElement 0 800 (Some body_element));
   ("pricing", mkElement 800 800 (Some body_element));
   ("contact", mkElement 1600 800 (Some body_element))].

(** The sample document after mount, with the first item current. *)
Definition tracking_world (y : Q) : World :=
  mkWorld
    [bound_anchor "#intro" true; bound_anchor "#pricing" false;
     bound_anchor "#contact" false]
    sample_elements y 1800 true None [] 0 0 (Some [0; 1; 2]%nat)
    linear_bezierEasing (item 0) [].

(** The same document in the middle of an animation towards the second
    section: the frame that [step] scheduled is outstanding and recorded. *)
Definition animating_world (track : bool) : World :=
  mkWorld
    [bound_anchor "#intro" true; bound_anchor "#pricing" false;
     bound_anchor "#contact" false]
    sample_elements 390 1800 track (Some 1%nat)
    [(1%nat, mkClosure 0 800 (λ x, x) (Some 1000))] 2 0 (Some [0; 1; 2]%nat)
    linear_bezierEasing (item 0) [].

(** ** Further vocabulary *)

(** ** Registration *)

Definition with_binding (b : bool) (a : Anchor) : Anchor :=
  mkAnchor (hash a) (classList a) (inDocument a) b.

(** The world after [addEventListener('click', ...)] ([b] true) or
    [removeEventListener('click', ...)] ([b] false) on item [i], and on every
    item of a list. *)
Definition bind (b : bool) (w : World) (i : nat) : World :=
  world_of (set_clickBound b i w).

Definition bind_all (b : bool) (items : list nat) (w : World) : World :=
  foldl (bind b) w items.

(** The items that [querySelectorAll('.scrollactive-item')] finds. *)
Definition discovered (w : World) : list nat := select_from 0 (nodes w).

(** What a check leaves behind, whichever copy runs it: [w1] is the world
    after the scan and [w'] the world after the check. *)
Definition checked (c : string) (cur : ItemRef) (w1 w' : World) : Prop :=
  nodes w' = nodes (flag_current c cur w1)
  ∧ elements w' = elements w1
  ∧ scrollY w' = scrollY w1
  ∧ scrollactiveItems w' = scrollactiveItems w1
  ∧ lastActiveItem w' = cur.

(** [array.join(sep)] and the number of occurrences of a character. *)
Fixpoint join_on (sep : ascii) (l : list string) : string :=
  match l with
  | [] => EmptyString
  | [x] => x
  | x :: rest => x +:+ String sep (join_on sep rest)
  end.

Fixpoint count_char (c : ascii) (s : string) : nat :=
  match s with
  | EmptyString => 0
  | String a r => (if decide (a = c) then 1 else 0) + count_char c r
  end.

(** The environment runs the frames of one animation at the given timestamps:
    the callback [h] first, then each time the callback that the frame before
    recorded in [window.AFRequestID]. *)
Fixpoint run_frames (step : Closure → Q → Js unit) (h : nat) (tss : list Q) : Js unit :=
  match tss with
  | [] => mret tt
  | ts :: rest =>
      run_frame step h ts;;
      recorded ← gets AFRequestID;
      match recorded with
      | Some n => run_frames step n rest
      | None => mret tt
      end
  end.

(** ** An easing that overshoots *)






(** * Properties *)

(** ** getOffsetTop *)

Lemma getOffsetTop_loop_sum (e : Element) :
  ∀ acc, getOffsetTop_loop acc e = (acc + sum_offsetTop (offset_chain_from e))%Z.
Proof.
  induction e as [t h | t h p IH] using Element_chain_ind; intros acc; simpl.
  - lia.
  - rewrite IH. lia.
Qed.

(** C9: [getOffsetTop] is the sum of [offsetTop] along the chain of offset
    parents of its argument, and it is 0 for a null argument (whose chain is
    empty).  The function is total and takes no world: it cannot fail and has
    no effect. *)
Theorem getOffsetTop_sums_offset_chain (element : option Element) :
  getOffsetTop element = sum_offsetTop (offset_chain element)
  ∧ getOffsetTop None = 0%Z
  ∧ (offset_chain element = [] → getOffsetTop element = 0%Z).
Proof.
  split; [|split].
  - destruct element as [e|]; simpl; [|reflexivity].
    rewrite getOffsetTop_loop_sum. lia.
  - reflexivity.
  - destruct element as [[t h [p|]]|]; simpl; intros H; try discriminate.
    reflexivity.
Qed.

Lemma getOffsetTop_sums_offset_chain_witness :
  getOffsetTop (Some (mkElement 800 800 (Some body_element))) = 800%Z
  ∧ getOffsetTop None = 0%Z.
Proof.
  destruct (getOffsetTop_sums_offset_chain
              (Some (mkElement 800 800 (Some body_element)))) as (Hsum & _ & _).
  destruct (getOffsetTop_sums_offset_chain None) as (_ & _ & Hnull).
  split; [rewrite Hsum; reflexivity | apply Hnull; reflexivity].
Defined.

(** ** Discovery and validation *)

Ltac js := unfold mbind, mret, Js_bind, Js_ret, gets, modify, throw in *; cbn in *.

Lemma validate_loop (l : list nat) (w : World) :
  forEach l validate_item w =
    match list_find (unresolved w) l with
    | Some (_, i) => Thrown (mkError (not_found_message (hash (node w i)))) w
    | None => Returned tt w
    end.
Proof.
  induction l as [|i l IH]; [reflexivity|].
  unfold forEach in *. cbn [forEach_with list_find].
  unfold mbind at 1, Js_bind at 1.
  unfold validate_item at 1. js.
  unfold unresolved at 1, resolve at 1.
  destruct (decide _) as [Hn|Hn].
  - unfold unresolved, resolve in Hn. rewrite Hn. reflexivity.
  - unfold unresolved, resolve in Hn.
    destruct (lookup_id _ _) eqn:E; [|congruence].
    rewrite IH. destruct (list_find _ l) as [[? ?]|]; reflexivity.
Qed.

Lemma forEach_set_clickBound (b : bool) (l : list nat) (w : World) :
  ∃ w', forEach l (set_clickBound b) w = Returned tt w'.
Proof.
  revert w. induction l as [|i l IH]; intros w; [eexists; reflexivity|].
  unfold forEach in *. cbn. js. apply IH.
Qed.

Lemma setScrollactiveItems_unfold (p : Props) (w : World) :
  setScrollactiveItems p w =
    let items := select_from 0 (nodes w) in
    match forEach items validate_item w with
    | Returned _ w1 =>
        forEach items (set_clickBound (clickToScroll p))
          (set_scrollactiveItems (Some items) w1)
    | Thrown e w' => Thrown e w'
    end.
Proof.
  unfold setScrollactiveItems, querySelectorAll_items. js.
  destruct (forEach _ _ w); [|reflexivity].
  destruct (clickToScroll p); reflexivity.
Qed.

Lemma setScrollactiveItems_cases (p : Props) (w : World) :
  match list_find (unresolved w) (select_from 0 (nodes w)) with
  | Some (_, i) =>
      setScrollactiveItems p w =
        Thrown (mkError (not_found_message (hash (node w i)))) w
  | None => ∃ w', setScrollactiveItems p w = Returned tt w'
  end.
Proof.
  rewrite setScrollactiveItems_unfold. cbv zeta. rewrite validate_loop.
  destruct (list_find _ _) as [[k i]|]; [reflexivity|].
  apply forEach_set_clickBound.
Qed.

(** C6: [setScrollactiveItems] throws exactly when the hash of some
    discovered item resolves to no element; the error names the hash of such
    an item, and the world at the throw is the world before the call, so the
    registered list and the click bindings are as they were; [mounted] and
    [updated] then end with the same error in the same world. *)
Theorem setScrollactiveItems_fails_iff_unresolved (p : Props) (w : World) :
  let discovered := select_from 0 (nodes w) in
  ((∃ e w', setScrollactiveItems p w = Thrown e w')
     ↔ ∃ i, i ∈ discovered ∧ unresolved w i)
  ∧ (∀ e w', setScrollactiveItems p w = Thrown e w' →
       w' = w
       ∧ (∃ i, i ∈ discovered ∧ unresolved w i
               ∧ e = mkError (not_found_message (hash (node w i))))
       ∧ Band.mounted p w = Thrown e w
       ∧ Threshold.mounted p w = Thrown e w
       ∧ updated p w = Thrown e w).
Proof.
  intros discovered. subst discovered.
  pose proof (setScrollactiveItems_cases p w) as H.
  destruct (list_find _ _) as [[k i]|] eqn:E.
  - apply list_find_Some in E as (Hk & Hi & _).
    assert (i ∈ select_from 0 (nodes w)) by (eapply list_elem_of_lookup_2; eauto).
    split.
    + split; [intros _; eauto | intros _; eauto].
    + intros e w' He. rewrite H in He. inversion He; subst.
      split; [reflexivity|]. split; [eauto|].
      unfold Band.mounted, Threshold.mounted, updated, mbind, Js_bind.
      rewrite H. repeat split.
  - apply list_find_None in E. destruct H as [w1 H]. split.
    + split.
      * intros (e & w' & He). rewrite H in He. discriminate.
      * intros (i & Hi & Hu). rewrite Forall_forall in E. exfalso. eapply E; eauto.
    + intros e w' He. rewrite H in He. discriminate.
Qed.

Lemma setScrollactiveItems_fails_iff_unresolved_witness :
  setScrollactiveItems (sample_props false) broken_world
    = Thrown (mkError "Element '#pricing' was not found. Make sure it is set in the DOM.")
        broken_world
  ∧ ∃ i, i ∈ select_from 0 (nodes broken_world) ∧ unresolved broken_world i.
Proof.
  split; [vm_compute; reflexivity|].
  destruct (setScrollactiveItems_fails_iff_unresolved (sample_props false) broken_world)
    as [_ H].
  destruct (H _ _ ltac:(vm_compute; reflexivity)) as (_ & (i & Hi & Hu & _) & _).
  exists i. split; assumption.
Defined.

(** ** Flags on the node store *)

Lemma unflag_eq c w j :
  unflag c w j = set_nodes (λ ns, <[j := without_class c (ns !!! j)]> ns) w.
Proof. reflexivity. Qed.

Lemma flag_eq c w j :
  flag c w j = set_nodes (λ ns, <[j := with_class c (ns !!! j)]> ns) w.
Proof. reflexivity. Qed.

Lemma node_update (f : Anchor → Anchor) (w : World) (j i : nat) :
  node (set_nodes (λ ns, <[j := f (ns !!! j)]> ns) w) i =
    if decide (i = j ∧ (j < length (nodes w))%nat) then f (node w j) else node w i.
Proof.
  unfold node. cbn. destruct (decide _) as [[-> Hlt]|Hn].
  - apply list_lookup_total_insert_eq. exact Hlt.
  - destruct (decide (i = j)) as [->|Hne].
    + rewrite list_insert_ge; [reflexivity|]. lia.
    + apply list_lookup_total_insert_ne. congruence.
Qed.

Lemma unflag_only_nodes c w i :
  unflag c w i = set_nodes (λ _, nodes (unflag c w i)) w.
Proof. reflexivity. Qed.

Lemma unflag_all_cons c i l w :
  unflag_all c (i :: l) w = unflag_all c l (unflag c w i).
Proof. reflexivity. Qed.

Lemma unflag_all_only_nodes c items : ∀ w,
  unflag_all c items w = set_nodes (λ _, nodes (unflag_all c items w)) w.
Proof.
  induction items as [|i l IH]; intros w; [destruct w; reflexivity|].
  rewrite unflag_all_cons. rewrite IH at 1. reflexivity.
Qed.

Lemma unflag_all_length c items : ∀ w,
  length (nodes (unflag_all c items w)) = length (nodes w).
Proof.
  induction items as [|i l IH]; intros w; [reflexivity|].
  rewrite unflag_all_cons, IH. cbn. apply length_insert.
Qed.

Lemma hash_unflag c w j i : hash (node (unflag c w j) i) = hash (node w i).
Proof.
  rewrite unflag_eq, node_update. destruct (decide _) as [[-> _]|_]; reflexivity.
Qed.

Lemma resolve_unflag c w j i : resolve (unflag c w j) i = resolve w i.
Proof. unfold resolve. rewrite hash_unflag. reflexivity. Qed.

Lemma classList_unflag c w j i :
  classList (node (unflag c w j) i) =
    if decide (i = j) then classList (node w i) ∖ {[c]} else classList (node w i).
Proof.
  rewrite unflag_eq, node_update. destruct (decide (i = j ∧ _)) as [[-> Hlt]|Hn].
  - rewrite decide_True by reflexivity. reflexivity.
  - destruct (decide (i = j)) as [->|]; [|reflexivity].
    assert (length (nodes w) ≤ j)%nat as Hge by lia.
    unfold node. rewrite list_lookup_total_alt, (lookup_ge_None_2 _ _ Hge). cbn.
    set_solver.
Qed.

Lemma classList_unflag_all c items : ∀ w i x,
  x ∈ classList (node (unflag_all c items w) i) ↔
    x ∈ classList (node w i) ∧ (x = c → i ∉ items).
Proof.
  induction items as [|j l IH]; intros w i x.
  - cbn. split; [intros H; split; [exact H | intros _; apply not_elem_of_nil] | tauto].
  - rewrite unflag_all_cons, IH, classList_unflag. rewrite not_elem_of_cons.
    destruct (decide (i = j)) as [->|Hne]; set_solver.
Qed.

Lemma classList_flag c w j i :
  classList (node (flag c w j) i) =
    if decide (i = j ∧ (j < length (nodes w))%nat)
    then {[c]} ∪ classList (node w i) else classList (node w i).
Proof.
  rewrite flag_eq, node_update. destruct (decide _) as [[-> _]|_]; reflexivity.
Qed.

(** ** The scans *)

Lemma foldl_choose_ext (q1 q2 : nat → bool) (l : list nat) :
  (∀ i, q1 i = q2 i) → ∀ a, foldl (choose q1) a l = foldl (choose q2) a l.
Proof.
  intros H. induction l as [|i l IH]; intros a; [reflexivity|].
  cbn. unfold choose at 2 4. rewrite H. apply IH.
Qed.

Lemma foldl_choose_last (P : nat → Prop) `{∀ i, Decision (P i)} (l : list nat) :
  ∀ a, foldl (choose (λ i, bool_decide (P i))) a l
       = from_option item a (last_qualifying P l).
Proof.
  unfold last_qualifying.
  induction l as [|i l IH]; intros a; [reflexivity|].
  cbn [foldl]. rewrite IH. unfold choose. rewrite filter_cons.
  destruct (decide (P i)) as [Hp|Hn].
  - rewrite bool_decide_eq_true_2 by exact Hp.
    rewrite last_cons. destruct (last (filter P l)); reflexivity.
  - rewrite bool_decide_eq_false_2 by exact Hn. reflexivity.
Qed.

Lemma Qle_bool_decide (x y : Q) : Qle_bool x y = bool_decide (x <= y).
Proof.
  destruct (Qle_bool x y) eqn:E.
  - symmetry. apply bool_decide_eq_true_2. apply Qle_bool_iff. exact E.
  - symmetry. apply bool_decide_eq_false_2. intros H.
    apply Qle_bool_iff in H. congruence.
Qed.

Lemma Qlt_bool_decide (x y : Q) : Qlt_bool x y = bool_decide (x < y).
Proof.
  unfold Qlt_bool. rewrite Qle_bool_decide.
  destruct (decide (y <= x)) as [H|H].
  - rewrite bool_decide_eq_true_2 by exact H. symmetry.
    apply bool_decide_eq_false_2. lra.
  - rewrite bool_decide_eq_false_2 by exact H. symmetry.
    apply bool_decide_eq_true_2. lra.
Qed.

Lemma threshold_body_eq (p : Props) (y : Q) (cur : ItemRef) (i : nat) (w : World) :
  threshold_body p y cur i w =
    Returned
      (if Qle_bool
            (inject_Z (getOffsetTop (resolve (unflag (activeClass p) w i) i)) - offset p) y
       then item i else cur)
      (unflag (activeClass p) w i).
Proof. reflexivity. Qed.

Lemma threshold_scan (p : Props) (items : list nat) : ∀ cur w,
  forEach_with items (threshold_body p (scrollY w)) cur w =
    Returned
      (foldl (choose (λ i, bool_decide (threshold_reached p w i))) cur items)
      (unflag_all (activeClass p) items w).
Proof.
  induction items as [|i l IH]; intros cur w; [reflexivity|].
  rewrite unflag_all_cons.
  cbn [forEach_with foldl]. unfold mbind at 1, Js_bind at 1.
  rewrite threshold_body_eq, resolve_unflag.
  pose proof (IH (choose (λ i, bool_decide (threshold_reached p w i)) cur i)
                 (unflag (activeClass p) w i)) as IH'.
  change (scrollY (unflag (activeClass p) w i)) with (scrollY w) in IH'.
  replace (if Qle_bool _ _ then item i else cur)
    with (choose (λ i, bool_decide (threshold_reached p w i)) cur i).
  - rewrite IH'. f_equal. apply foldl_choose_ext. intros j.
    apply bool_decide_ext. unfold threshold_reached.
    rewrite resolve_unflag. reflexivity.
  - unfold choose, threshold_reached. rewrite Qle_bool_decide. reflexivity.
Qed.

Lemma band_body_eq (p : Props) (y : Q) (cur : ItemRef) (i : nat) (w : World) :
  band_body p y cur i w =
    match resolve w i with
    | None => Thrown TypeError (unflag (activeClass p) w i)
    | Some t =>
        let itemTop := inject_Z (getOffsetTop (Some t)) - offset p in
        Returned
          (if Qle_bool itemTop y && Qlt_bool y (itemTop + inject_Z (clientHeight t))
           then item i else cur)
          (unflag (activeClass p) w i)
    end.
Proof.
  unfold band_body, resolve, getElementById, mbind, Js_bind, gets. cbn beta.
  destruct (lookup_id _ _); reflexivity.
Qed.

Lemma list_find_unresolved_unflag c w j (l : list nat) :
  list_find (unresolved (unflag c w j)) l = list_find (unresolved w) l.
Proof.
  induction l as [|x l IH]; [reflexivity|].
  cbn [list_find]. rewrite IH.
  destruct (decide (unresolved (unflag c w j) x)) as [H1|H1],
           (decide (unresolved w x)) as [H2|H2]; try reflexivity;
    unfold unresolved in *; rewrite resolve_unflag in H1; contradiction.
Qed.

Lemma band_scan (p : Props) (items : list nat) : ∀ cur w,
  forEach_with items (band_body p (scrollY w)) cur w =
    match list_find (unresolved w) items with
    | None =>
        Returned
          (foldl (choose (λ i, bool_decide (band_contains p w i))) cur items)
          (unflag_all (activeClass p) items w)
    | Some (k, _) =>
        Thrown TypeError (unflag_all (activeClass p) (take (S k) items) w)
    end.
Proof.
  induction items as [|i l IH]; intros cur w; [reflexivity|].
  cbn [forEach_with foldl list_find]. unfold mbind at 1, Js_bind at 1.
  rewrite band_body_eq.
  destruct (decide (unresolved w i)) as [Hu|Hr].
  - unfold unresolved in Hu. rewrite Hu. reflexivity.
  - unfold unresolved in Hr. destruct (resolve w i) as [t|] eqn:Et; [|congruence].
    cbv zeta.
    pose proof (IH (choose (λ i, bool_decide (band_contains p w i)) cur i)
                   (unflag (activeClass p) w i)) as IH'.
    change (scrollY (unflag (activeClass p) w i)) with (scrollY w) in IH'.
    replace (if Qle_bool _ _ && Qlt_bool _ _ then item i else cur)
      with (choose (λ i, bool_decide (band_contains p w i)) cur i).
    + rewrite IH', list_find_unresolved_unflag.
      destruct (list_find (unresolved w) l) as [[k x]|]; cbn [fmap option_fmap option_map prod_map fst snd].
      * reflexivity.
      * rewrite unflag_all_cons. f_equal. apply foldl_choose_ext. intros j.
        apply bool_decide_ext. unfold band_contains.
        rewrite resolve_unflag. reflexivity.
    + unfold choose.
      rewrite (bool_decide_ext (band_contains p w i)
                 (inject_Z (getOffsetTop (Some t)) - offset p <= scrollY w
                  ∧ scrollY w < inject_Z (getOffsetTop (Some t)) - offset p
                                + inject_Z (clientHeight t))).
      * rewrite bool_decide_and, Qle_bool_decide, Qlt_bool_decide. reflexivity.
      * unfold band_contains. rewrite Et. reflexivity.
Qed.

Lemma Band_getCurrentItem_eq (p : Props) (w : World) (items : list nat) :
  scrollactiveItems w = Some items →
  Band.getCurrentItem p w = forEach_with items (band_body p (scrollY w)) null w.
Proof.
  intros H. unfold Band.getCurrentItem, mbind, Js_bind, gets, registered_items.
  rewrite H. reflexivity.
Qed.

Lemma Band_onScroll_eq (p : Props) (ev : Event) (w : World) :
  Band.onScroll p ev w =
    match Band.getCurrentItem p w with
    | Returned cur w1 => Returned tt (Band_after_scan p ev cur w1)
    | Thrown e w1 => Thrown e w1
    end.
Proof.
  unfold Band.onScroll. unfold mbind at 1, Js_bind at 1.
  destruct (Band.getCurrentItem p w) as [cur w1|e w1]; [|reflexivity].
  unfold Band_after_scan. js.
  destruct (decide (cur ≠ _)); destruct cur; reflexivity.
Qed.

Lemma Threshold_onScroll_eq (p : Props) (ev : Event) (w : World) (items : list nat) :
  scrollactiveItems w = Some items →
  Threshold.onScroll p ev w =
    Returned tt
      (Threshold_after_scan p ev
         (foldl (choose (λ i, bool_decide (threshold_reached p w i))) undefined items)
         (unflag_all (activeClass p) items w)).
Proof.
  intros H. unfold Threshold.onScroll.
  unfold mbind at 1, Js_bind at 1, gets at 1.
  unfold mbind at 1, Js_bind at 1, registered_items at 1. rewrite H.
  unfold mbind at 1, Js_bind at 1.
  change (forEach_with items _ undefined w)
    with (forEach_with items (threshold_body p (scrollY w)) undefined w).
  rewrite threshold_scan.
  unfold Threshold_after_scan. js.
  destruct (decide (_ ≠ _)); [destruct (truthy _)|];
    destruct (foldl _ _ _); reflexivity.
Qed.

(** ** The active flag after a check *)

Lemma nodes_flag_current c cur w1 w2 :
  nodes w1 = nodes w2 →
  nodes (flag_current c cur w1) = nodes (flag_current c cur w2).
Proof.
  intros H. destruct cur; cbn [flag_current]; try exact H.
  rewrite !flag_eq. cbn. rewrite H. reflexivity.
Qed.

Lemma last_qualifying_elem_of (P : nat → Prop) `{∀ i, Decision (P i)}
    (items : list nat) (j : nat) :
  last_qualifying P items = Some j → j ∈ items ∧ P j.
Proof.
  unfold last_qualifying. intros E. apply last_Some_elem_of in E.
  apply list_elem_of_filter in E. tauto.
Qed.

Lemma flagged_after_scan (p : Props) (w w' : World) (items : list nat)
    (lq : option nat) (dflt : ItemRef) :
  truthy dflt = false →
  (∀ j, lq = Some j → (j < length (nodes w))%nat) →
  nodes w' = nodes (flag_current (activeClass p) (from_option item dflt lq)
                      (unflag_all (activeClass p) items w)) →
  ∀ i, i ∈ items → flagged p w' i ↔ lq = Some i.
Proof.
  intros Hd Hr Hn i Hi. unfold flagged, node. rewrite Hn.
  assert (Hclear : activeClass p ∉
            classList (node (unflag_all (activeClass p) items w) i)).
  { rewrite classList_unflag_all. intros [_ H]. apply H; [reflexivity | exact Hi]. }
  destruct lq as [j|]; cbn [from_option].
  - cbn [flag_current]. fold (node (flag (activeClass p) (unflag_all (activeClass p) items w) j) i).
    rewrite classList_flag, unflag_all_length.
    destruct (decide (i = j ∧ _)) as [[-> _]|Hne].
    + split; [reflexivity | intros _; set_solver].
    + split; [intros H; contradiction|].
      intros [= ->]. exfalso. apply Hne. split; [reflexivity | apply Hr; reflexivity].
  - destruct dflt; try discriminate; cbn [flag_current];
      (split; [intros H; contradiction | discriminate]).
Qed.

(** C8: a completed check leaves the node store as it is after the flag was
    cleared from every registered item and then set on the current item; the
    current item is the last registered item, in source order, whose band
    contains the reference position ([src/scrollactive.vue]), or whose
    threshold is at or before it (the other copy); a registered item is
    flagged exactly when it is that item, so at most one is. *)
Theorem at_most_one_item_flagged_after_check
    (p : Props) (ev : Event) (w : World) (items : list nat) :
  scrollactiveItems w = Some items →
  Forall (λ i, (i < length (nodes w))%nat) items →
  (∀ w', Band.onScroll p ev w = Returned tt w' →
     let cur := last_qualifying (band_contains p w) items in
     nodes w' = nodes (flag_current (activeClass p) (from_option item null cur)
                         (unflag_all (activeClass p) items w))
     ∧ (∀ i, i ∈ items → flagged p w' i ↔ cur = Some i)
     ∧ (∀ i j, i ∈ items → j ∈ items → flagged p w' i → flagged p w' j → i = j))
  ∧ (∀ w', Threshold.onScroll p ev w = Returned tt w' →
     let cur := last_qualifying (threshold_reached p w) items in
     nodes w' = nodes (flag_current (activeClass p) (from_option item undefined cur)
                         (unflag_all (activeClass p) items w))
     ∧ (∀ i, i ∈ items → flagged p w' i ↔ cur = Some i)
     ∧ (∀ i j, i ∈ items → j ∈ items → flagged p w' i → flagged p w' j → i = j)).
Proof.
  intros Hitems Hrange.
  assert (Hin : ∀ (P : nat → Prop) `{∀ i, Decision (P i)} j,
             last_qualifying P items = Some j → (j < length (nodes w))%nat).
  { intros P ? j E. apply last_qualifying_elem_of in E as [E _].
    rewrite Forall_forall in Hrange. apply Hrange, E. }
  split; intros w' Hrun cur.
  - rewrite Band_onScroll_eq, (Band_getCurrentItem_eq _ _ _ Hitems), band_scan in Hrun.
    destruct (list_find _ _) as [[k x]|]; [discriminate|].
    injection Hrun as <-. rewrite foldl_choose_last. fold cur.
    assert (Hn : nodes (Band_after_scan p ev (from_option item null cur)
                          (unflag_all (activeClass p) items w))
                 = nodes (flag_current (activeClass p) (from_option item null cur)
                            (unflag_all (activeClass p) items w))).
    { unfold Band_after_scan. cbv zeta. apply nodes_flag_current.
      destruct (decide _); reflexivity. }
    assert (Hiff := flagged_after_scan p w _ items cur null eq_refl (Hin _ _) Hn).
    split; [exact Hn | split; [exact Hiff|]].
    intros i j Hi Hj Fi Fj. apply Hiff in Fi, Fj; [congruence | exact Hj | exact Hi].
  - rewrite (Threshold_onScroll_eq _ _ _ _ Hitems) in Hrun.
    injection Hrun as <-. rewrite foldl_choose_last. fold cur.
    assert (Hn : nodes (Threshold_after_scan p ev (from_option item undefined cur)
                          (unflag_all (activeClass p) items w))
                 = nodes (flag_current (activeClass p) (from_option item undefined cur)
                            (unflag_all (activeClass p) items w))).
    { unfold Threshold_after_scan. cbv zeta. apply nodes_flag_current.
      destruct (decide _); [destruct (truthy _)|]; reflexivity. }
    assert (Hiff := flagged_after_scan p w _ items cur undefined eq_refl (Hin _ _) Hn).
    split; [exact Hn | split; [exact Hiff|]].
    intros i j Hi Hj Fi Fj. apply Hiff in Fi, Fj; [congruence | exact Hj | exact Hi].
Qed.

(** ** Operations that only touch the node store *)

Lemma only_nodes_refl w : only_nodes w w.
Proof. destruct w; reflexivity. Qed.

Lemma only_nodes_trans w1 w2 w3 :
  only_nodes w1 w2 → only_nodes w2 w3 → only_nodes w1 w3.
Proof. unfold only_nodes. intros H12 H23. rewrite H23, H12 at 1. reflexivity. Qed.

Lemma only_nodes_update i f w : only_nodes w (world_of (update_node i f w)).
Proof. reflexivity. Qed.

Lemma forEach_with_only_nodes {A} (body : A → nat → Js A) (l : list nat) :
  (∀ a x w, only_nodes w (world_of (body a x w))) →
  ∀ a w, only_nodes w (world_of (forEach_with l body a w)).
Proof.
  intros Hb. induction l as [|x l IH]; intros a w; [apply only_nodes_refl|].
  cbn [forEach_with]. unfold mbind, Js_bind.
  pose proof (Hb a x w) as H1.
  destruct (body a x w) as [a' w1|e w1]; cbn [world_of] in *; [|exact H1].
  eapply only_nodes_trans; [exact H1 | apply IH].
Qed.

Lemma band_body_only_nodes p y a x w :
  only_nodes w (world_of (band_body p y a x w)).
Proof. rewrite band_body_eq. destruct (resolve w x); reflexivity. Qed.

Lemma Band_getCurrentItem_only_nodes p w :
  only_nodes w (world_of (Band.getCurrentItem p w)).
Proof.
  destruct (scrollactiveItems w) as [items|] eqn:E.
  - rewrite (Band_getCurrentItem_eq _ _ _ E).
    apply forEach_with_only_nodes. intros; apply band_body_only_nodes.
  - unfold Band.getCurrentItem, mbind, Js_bind, gets, registered_items.
    rewrite E. apply only_nodes_refl.
Qed.

Lemma forEach_only_nodes (body : nat → Js unit) (l : list nat) (w : World) :
  (∀ x w, only_nodes w (world_of (body x w))) →
  only_nodes w (world_of (forEach l body w)).
Proof. intros H. apply forEach_with_only_nodes. intros _ x w0. apply H. Qed.

Lemma validate_item_same x w : world_of (validate_item x w) = w.
Proof.
  unfold validate_item, getElementById, mbind, Js_bind, gets. cbn beta.
  destruct (lookup_id _ _); reflexivity.
Qed.

Lemma setScrollactiveItems_returned (p : Props) (w w' : World) :
  setScrollactiveItems p w = Returned tt w' →
  only_nodes (set_scrollactiveItems (Some (select_from 0 (nodes w))) w) w'.
Proof.
  rewrite setScrollactiveItems_unfold. cbv zeta. rewrite validate_loop.
  destruct (list_find _ _) as [[k i]|]; [discriminate|].
  intros H.
  pose proof (forEach_only_nodes (set_clickBound (clickToScroll p))
                (select_from 0 (nodes w))
                (set_scrollactiveItems (Some (select_from 0 (nodes w))) w)
                (λ x w0, eq_refl)) as Ho.
  rewrite H in Ho. exact Ho.
Qed.

Lemma setScrollactiveItems_thrown (p : Props) (w w' : World) (e : Error) :
  setScrollactiveItems p w = Thrown e w' → w' = w.
Proof.
  rewrite setScrollactiveItems_unfold. cbv zeta. rewrite validate_loop.
  destruct (list_find _ _) as [[k i]|]; [congruence|].
  destruct (forEach_set_clickBound (clickToScroll p) (select_from 0 (nodes w))
              (set_scrollactiveItems (Some (select_from 0 (nodes w))) w)) as [w1 ->].
  discriminate.
Qed.

Lemma emitted_only_nodes w w' : only_nodes w w' → emitted w' = emitted w.
Proof. intros ->. reflexivity. Qed.

Lemma emitted_tell e w :
  emitted (tell e w) = emitted w ++ (if is_Emit e then [e] else []).
Proof.
  unfold emitted. cbn. rewrite List.filter_app. cbn.
  destruct (is_Emit e); reflexivity.
Qed.

Lemma emitted_flag_current c cur w : emitted (flag_current c cur w) = emitted w.
Proof. destruct cur; reflexivity. Qed.

(** ** Starting and running an animation *)

Lemma Band_scrollToTarget_eq (p : Props) (id : string) (w : World) :
  Band.scrollToTarget p (VString id) w =
    let w1 := paused p w in
    match build_easing p w1 with
    | Returned e _ =>
        Returned tt (schedule (session w (lookup_id id (elements w)) e) w1)
    | Thrown err _ => Thrown err w1
    end.
Proof.
  unfold Band.scrollToTarget, paused, build_easing, getElementById, mbind, Js_bind, gets.
  cbn beta.
  destruct (alwaysTrack p); cbn; destruct (bezierEasing w _ _ _ _); reflexivity.
Qed.

Lemma build_easing_paused p w :
  build_easing p (paused p w) =
    match build_easing p w with
    | Returned e _ => Returned e (paused p w)
    | Thrown err _ => Thrown err (paused p w)
    end.
Proof.
  unfold build_easing, paused.
  destruct (alwaysTrack p); cbn; destruct (bezierEasing w _ _ _ _); reflexivity.
Qed.

Lemma Band_step_eq (p : Props) (c : Closure) (ts : Q) (w : World) :
  Band.step p c ts w =
    let w1 := scrolled (tick_perTick (tick p c ts)) w in
    if completes p c ts
    then if alwaysTrack p then Returned tt w1
         else match Band.getCurrentItem p w1 with
              | Returned cur w2 =>
                  Returned tt (deferred (flag_current (activeClass p) cur w2))
              | Thrown e w2 => Thrown e w2
              end
    else Returned tt (continued p c ts w).
Proof.
  unfold Band.step, completes, continued. cbv zeta.
  unfold mbind at 1, Js_bind at 1. cbn [window_scrollTo modify].
  fold (scrolled (tick_perTick (tick p c ts)) w).
  destruct (Qlt_bool _ _); cbn [negb]; [reflexivity|].
  destruct (alwaysTrack p); cbn [negb]; [reflexivity|].
  unfold mbind at 1, Js_bind at 1.
  destruct (Band.getCurrentItem p _) as [cur w2|e w2]; [|reflexivity].
  destruct cur; reflexivity.
Qed.

Lemma Threshold_step_eq (p : Props) (c : Closure) (ts : Q) (w : World) :
  Threshold.step p c ts w =
    if completes p c ts
    then Returned tt (attach (scrolled (tick_perTick (tick p c ts)) w))
    else Returned tt (continued p c ts w).
Proof.
  unfold Threshold.step, completes, continued. cbv zeta.
  unfold mbind at 1, Js_bind at 1. cbn [window_scrollTo modify].
  fold (scrolled (tick_perTick (tick p c ts)) w).
  destruct (Qlt_bool _ _); reflexivity.
Qed.

Lemma Band_itemClickHandler_eq (p : Props) (i : nat) (w : World) :
  Band.itemClickHandler p (ClickEvent i) w =
    match Band.scrollToTarget p (VString (substr1 (hash (node w i))))
            (tell PreventDefault w) with
    | Returned _ w1 => Returned tt (tell (Emit (ClickEvent i) [item i]) w1)
    | Thrown e w1 => Thrown e w1
    end.
Proof.
  unfold Band.itemClickHandler, mbind, Js_bind, gets, modify, emit_itemchanged.
  cbn beta. change (node (tell PreventDefault w) i) with (node w i).
  destruct (Band.scrollToTarget _ _ _); reflexivity.
Qed.

Lemma beforeDestroy_eq (p : Props) (w : World) :
  beforeDestroy p w = Returned tt (cancel (detach w)).
Proof. reflexivity. Qed.

(** ** Notifications *)

Lemma emitted_paused p w : emitted (paused p w) = emitted w.
Proof.
  unfold paused. destruct (alwaysTrack p); [reflexivity|].
  unfold emitted. cbn. rewrite !List.filter_app. cbn. rewrite !app_nil_r. reflexivity.
Qed.

Lemma emitted_schedule c w : emitted (schedule c w) = emitted w.
Proof. unfold schedule. rewrite emitted_tell. cbn. apply app_nil_r. Qed.

Lemma emitted_scrolled y w : emitted (scrolled y w) = emitted w.
Proof. unfold scrolled. rewrite emitted_tell. cbn. apply app_nil_r. Qed.

Lemma emitted_deferred w : emitted (deferred w) = emitted w.
Proof. unfold emitted. cbn. rewrite List.filter_app. cbn. apply app_nil_r. Qed.

Lemma emitted_attach w : emitted (attach w) = emitted w.
Proof. unfold emitted. cbn. rewrite List.filter_app. cbn. apply app_nil_r. Qed.

Lemma emitted_Band_scrollToTarget p v w :
  emitted (world_of (Band.scrollToTarget p v w)) = emitted w.
Proof.
  destruct v; try reflexivity.
  rewrite Band_scrollToTarget_eq. cbv zeta.
  destruct (build_easing p (paused p w)); cbn [world_of];
    rewrite ?emitted_schedule; apply emitted_paused.
Qed.

Lemma emitted_Band_step p c ts w :
  emitted (world_of (Band.step p c ts w)) = emitted w.
Proof.
  rewrite Band_step_eq. cbv zeta.
  destruct (completes p c ts).
  - destruct (alwaysTrack p); [apply emitted_scrolled|].
    pose proof (Band_getCurrentItem_only_nodes p (scrolled (tick_perTick (tick p c ts)) w)) as H.
    apply emitted_only_nodes in H.
    destruct (Band.getCurrentItem p _) as [cur w2|e w2]; cbn [world_of] in *.
    + rewrite emitted_deferred, emitted_flag_current, H. apply emitted_scrolled.
    + rewrite H. apply emitted_scrolled.
  - cbn [world_of]. unfold continued. cbv zeta.
    change (emitted (set_AFRequestID _ ?x)) with (emitted x).
    rewrite emitted_schedule. apply emitted_scrolled.
Qed.

Lemma emitted_run_frame step h ts w :
  (∀ c w, emitted (world_of (step c ts w)) = emitted w) →
  emitted (world_of (run_frame step h ts w)) = emitted w.
Proof.
  intros H. unfold run_frame.
  destruct (list_find _ _) as [[k [h' c]]|]; [|reflexivity].
  rewrite H. reflexivity.
Qed.

Lemma emitted_setScrollactiveItems p w :
  emitted (world_of (setScrollactiveItems p w)) = emitted w.
Proof.
  destruct (setScrollactiveItems p w) as [[] w'|e w'] eqn:E; cbn [world_of].
  - apply setScrollactiveItems_returned, emitted_only_nodes in E. exact E.
  - apply setScrollactiveItems_thrown in E. rewrite E. reflexivity.
Qed.

(** C3, on [src/scrollactive.vue]: mounted with the first section in view,
    the component emits [itemchanged] from its own first check. *)
Theorem Band_mounted_emits_at_startup :
  ∃ w', Band.mounted (sample_props false) (sample_world 0) = Returned tt w'
        ∧ emitted w' = [Emit NoEvent [item 0%nat; null]].
Proof. eexists. split; vm_compute; reflexivity. Qed.

(** In the other copy the first check of a fresh instance is silent. *)
Lemma Threshold_mounted_silent (p : Props) (w w' : World) :
  lastActiveItem w = null →
  Threshold.mounted p w = Returned tt w' →
  emitted w' = emitted w.
Proof.
  intros Hnull Hrun. unfold Threshold.mounted in Hrun.
  unfold mbind at 1, Js_bind at 1 in Hrun.
  destruct (setScrollactiveItems p w) as [[] w1|e w1] eqn:E1; [|discriminate].
  apply setScrollactiveItems_returned in E1.
  assert (scrollactiveItems w1 = Some (select_from 0 (nodes w))
          ∧ lastActiveItem w1 = null ∧ emitted w1 = emitted w) as (Hi & Hl & He).
  { rewrite E1. cbn. auto. }
  unfold mbind at 1, Js_bind at 1 in Hrun.
  rewrite (Threshold_onScroll_eq _ _ _ _ Hi) in Hrun.
  injection Hrun as <-. cbn [addScrollListener modify].
  unfold emitted in *. cbn. rewrite List.filter_app. cbn. rewrite app_nil_r.
  fold (emitted (Threshold_after_scan p NoEvent
    (foldl (choose (λ i, bool_decide (threshold_reached p w1 i))) undefined
       (select_from 0 (nodes w))) (unflag_all (activeClass p) (select_from 0 (nodes w)) w1))).
  unfold Threshold_after_scan. cbv zeta. rewrite emitted_flag_current.
  rewrite (unflag_all_only_nodes _ _ w1). cbn [lastActiveItem set_nodes].
  rewrite Hl. cbn [truthy].
  destruct (decide _); exact He.
Qed.

(** C4, as amended: in [src/scrollactive.vue], excepting the initial check
    (the one [mounted] makes, which passes no event), a check emits one
    notification [(event, newItem, oldItem)] exactly when the item it
    computes differs from [lastActiveItem], and none otherwise; a click
    handled by [itemClickHandler] emits one notification [(event, item)]
    whenever the handler returns; registration, [scrollToTarget], animation
    frames, the re-attach timeout and teardown emit nothing. *)
Theorem itemchanged_raised_by_checks_and_clicks (p : Props) (w : World) :
  (∀ ev, ev ≠ NoEvent →
     match Band.getCurrentItem p w with
     | Returned cur _ =>
         ∃ w', Band.onScroll p ev w = Returned tt w'
               ∧ lastActiveItem w' = cur
               ∧ emitted w' = emitted w ++
                   (if decide (cur ≠ lastActiveItem w)
                    then [Emit ev [cur; lastActiveItem w]] else [])
     | Thrown e _ =>
         ∃ w', Band.onScroll p ev w = Thrown e w' ∧ emitted w' = emitted w
     end)
  ∧ (∀ i, let o := Band.itemClickHandler p (ClickEvent i) w in
          emitted (world_of o) = emitted w ++
            (if returns o then [Emit (ClickEvent i) [item i]] else []))
  ∧ emitted (world_of (setScrollactiveItems p w)) = emitted w
  ∧ (∀ v, emitted (world_of (Band.scrollToTarget p v w)) = emitted w)
  ∧ (∀ h ts, emitted (world_of (run_frame (Band.step p) h ts w)) = emitted w)
  ∧ emitted (world_of (run_timeout w)) = emitted w
  ∧ emitted (world_of (beforeDestroy p w)) = emitted w.
Proof.
  repeat split.
  - intros ev _. rewrite Band_onScroll_eq.
    pose proof (Band_getCurrentItem_only_nodes p w) as Ho.
    destruct (Band.getCurrentItem p w) as [cur w1|e w1]; cbn [world_of] in Ho.
    + eexists. split; [reflexivity|].
      unfold Band_after_scan. cbv zeta. rewrite Ho.
      cbn [lastActiveItem tell set_nodes].
      destruct (decide (cur ≠ lastActiveItem w)) as [Hd|Hd].
      * split; [destruct cur; reflexivity|].
        rewrite emitted_flag_current. unfold emitted. cbn.
        rewrite !List.filter_app. cbn. rewrite app_nil_r. reflexivity.
      * assert (cur = lastActiveItem w) as Heq
          by (destruct (decide (cur = lastActiveItem w)); [assumption | contradiction]).
        split; [destruct cur; cbn; symmetry; exact Heq|].
        rewrite emitted_flag_current. unfold emitted. cbn.
        rewrite !List.filter_app. cbn. rewrite !app_nil_r. reflexivity.
    + eexists. split; [reflexivity|]. apply emitted_only_nodes, Ho.
  - intros i o. subst o. rewrite Band_itemClickHandler_eq.
    pose proof (emitted_Band_scrollToTarget p
                  (VString (substr1 (hash (node w i)))) (tell PreventDefault w)) as He.
    destruct (Band.scrollToTarget _ _ _) as [[] w1|e w1]; cbn [world_of returns] in *.
    + rewrite emitted_tell, He, emitted_tell. cbn. rewrite app_nil_r. reflexivity.
    + rewrite He, emitted_tell. cbn. rewrite !app_nil_r. reflexivity.
  - apply emitted_setScrollactiveItems.
  - intros v. apply emitted_Band_scrollToTarget.
  - intros h ts. apply emitted_run_frame. intros c w0. apply emitted_Band_step.
  - unfold run_timeout. destruct (timers w); [reflexivity|].
    cbn [addScrollListener modify world_of]. apply (emitted_attach (set_timers n w)).
  - rewrite beforeDestroy_eq. cbn [world_of].
    unfold emitted. cbn. rewrite !List.filter_app. cbn. rewrite !app_nil_r. reflexivity.
Qed.

Lemma itemchanged_raised_by_checks_and_clicks_witness :
  ScrollEvent ≠ NoEvent
  ∧ ∃ w', Band.onScroll (sample_props false) ScrollEvent (tracking_world 810)
            = Returned tt w'
          ∧ lastActiveItem w' = item 1
          ∧ emitted w' = [Emit ScrollEvent [item 1; item 0]].
Proof.
  split; [discriminate|].
  destruct (itemchanged_raised_by_checks_and_clicks (sample_props false)
              (tracking_world 810)) as [Hcheck _].
  exact (Hcheck ScrollEvent ltac:(discriminate)).
Defined.

(** ** Cancellation of the recorded frame *)

Lemma forEach_unflag (c : string) (items : list nat) : ∀ w,
  forEach items (λ scrollactiveItem, classList_remove scrollactiveItem c) w
    = Returned tt (unflag_all c items w).
Proof.
  induction items as [|i l IH]; intros w; [reflexivity|].
  unfold forEach in *. cbn [forEach_with]. unfold mbind, Js_bind.
  change (classList_remove i c w) with (Returned tt (unflag c w i)).
  cbn iota beta. rewrite IH. reflexivity.
Qed.

Lemma Threshold_scrollToTargetElement_eq (p : Props) (i : nat) (w : World) :
  Threshold.scrollToTargetElement p (ClickEvent i) w =
    let w0 := tell PreventDefault w in
    match (if alwaysTrack p then Some [] else scrollactiveItems w) with
    | None => Thrown TypeError (cancel (detach w0))
    | Some items =>
        let w1 := Threshold_paused p i items w0 in
        match build_easing p w1 with
        | Returned e _ => Returned tt (schedule (session w1 (resolve w1 i) e) w1)
        | Thrown err _ => Thrown err w1
        end
    end.
Proof.
  unfold Threshold.scrollToTargetElement, Threshold_paused.
  unfold mbind at 1, Js_bind at 1, modify at 1.
  unfold mbind at 1, Js_bind at 1.
  destruct (alwaysTrack p); cbn [negb].
  - unfold build_easing, resolve, getElementById, mbind, Js_bind, gets, mret, Js_ret.
    cbn beta iota. destruct (bezierEasing _ _ _ _ _); reflexivity.
  - unfold mbind at 1, Js_bind at 1, removeScrollListener at 1, modify at 1.
    unfold mbind at 1, Js_bind at 1, gets at 1.
    unfold mbind at 1, Js_bind at 1, cancelAnimationFrame at 1, modify at 1.
    unfold mbind at 1, Js_bind at 1, registered_items at 1.
    cbn [scrollactiveItems tell set_frames set_scrollListener].
    destruct (scrollactiveItems w) as [items|]; [|reflexivity].
    unfold mbind at 1, Js_bind at 1. rewrite forEach_unflag.
    unfold cancel, detach.
    cbn [AFRequestID tell set_scrollListener].
    change (classList_add i (activeClass p) ?x)
      with (Returned tt (flag (activeClass p) x i)).
    cbn iota beta.
    unfold build_easing, resolve, getElementById, mbind, Js_bind, gets, mret, Js_ret.
    cbn beta iota.
    destruct (bezierEasing _ _ _ _ _); reflexivity.
Qed.

Lemma Threshold_paused_only_nodes p i items w :
  only_nodes (paused p w) (Threshold_paused p i items w).
Proof.
  unfold paused, Threshold_paused. destruct (alwaysTrack p); [apply only_nodes_refl|].
  eapply only_nodes_trans; [|reflexivity].
  unfold only_nodes. apply unflag_all_only_nodes.
Qed.

Lemma outstanding_drop_frame (o : option nat) (fs : list (nat * Closure)) :
  map fst (drop_frame o fs) = filter (λ h, o ≠ Some h) (map fst fs).
Proof.
  destruct o as [n|]; cbn [drop_frame].
  - induction fs as [|[h c] fs IH]; [reflexivity|].
    cbn [map fst]. rewrite !filter_cons. cbn [fst].
    destruct (decide (h = n)) as [->|Hne].
    + rewrite (decide_False (P := n ≠ n)) by (intros H; apply H; reflexivity).
      rewrite (decide_False (P := Some n ≠ Some n)) by (intros H; apply H; reflexivity).
      exact IH.
    + rewrite (decide_True (P := h ≠ n)) by exact Hne.
      rewrite (decide_True (P := Some n ≠ Some h)) by congruence.
      cbn [map fst]. f_equal. exact IH.
  - induction fs as [|[h c] fs IH]; [reflexivity|].
    cbn [map fst]. rewrite filter_cons. rewrite decide_True by discriminate.
    rewrite <- IH. reflexivity.
Qed.

Lemma outstanding_paused p w :
  outstanding (paused p w) =
    if alwaysTrack p then outstanding w
    else filter (λ h, AFRequestID w ≠ Some h) (outstanding w).
Proof.
  unfold paused. destruct (alwaysTrack p); [reflexivity|].
  unfold outstanding. cbn. apply outstanding_drop_frame.
Qed.

Lemma outstanding_schedule c w :
  outstanding (schedule c w) = outstanding w ++ [nextHandle w].
Proof. unfold outstanding. cbn. rewrite map_app. reflexivity. Qed.

Lemma log_paused p w :
  log (paused p w) =
    log w ++ (if alwaysTrack p then []
              else [RemoveScrollListener; CancelAnimationFrame (AFRequestID w)]).
Proof.
  unfold paused. destruct (alwaysTrack p); cbn; [rewrite app_nil_r|rewrite <- app_assoc];
    reflexivity.
Qed.

Lemma filter_none {A} (P : A → Prop) `{∀ x, Decision (P x)} (l : list A) :
  (∀ x, x ∈ l → ¬ P x) → filter P l = [].
Proof.
  induction l as [|x l IH]; intros H'; [reflexivity|].
  rewrite filter_cons, decide_False by (apply H'; left).
  apply IH. intros y Hy. apply H'. right. exact Hy.
Qed.

Lemma restarts_schedule_paused p pre c w0 w w1 :
  only_nodes (paused p w0) w1 →
  outstanding w0 = outstanding w → AFRequestID w0 = AFRequestID w →
  nextHandle w0 = nextHandle w → log w0 = log w ++ pre →
  restarts p pre w (schedule c w1).
Proof.
  intros Ho Hf Ha Hn Hl. unfold restarts.
  rewrite outstanding_schedule.
  assert (outstanding w1 = outstanding (paused p w0)) as -> by (rewrite Ho; reflexivity).
  assert (nextHandle w1 = nextHandle w) as Hn1.
  { rewrite Ho. unfold paused. destruct (alwaysTrack p); exact Hn. }
  assert (log w1 = log (paused p w0)) as Hlog by (rewrite Ho; reflexivity).
  change (log (schedule c w1)) with (log w1 ++ [RequestAnimationFrame (nextHandle w1)]).
  rewrite Hlog.
  assert (scrollListener (schedule c w1) = scrollListener (paused p w0)) as Hs
    by (rewrite Ho; reflexivity).
  rewrite outstanding_paused, log_paused, Hf, Ha, Hl, Hn1.
  split; [cbn; rewrite Hn1; reflexivity|].
  unfold paused in Hs.
  destruct (alwaysTrack p).
  - rewrite app_nil_r, <- app_assoc. split; reflexivity.
  - rewrite <- !app_assoc. repeat split; [exact Hs|].
    intros Hall. rewrite filter_none; [reflexivity|].
    intros h Hh Hne. apply Hne, Hall, Hh.
Qed.

Lemma Band_scrollToTarget_restarts (p : Props) (id : string) (w w' : World) :
  Band.scrollToTarget p (VString id) w = Returned tt w' → restarts p [] w w'.
Proof.
  rewrite Band_scrollToTarget_eq. cbv zeta.
  destruct (build_easing p (paused p w)) as [e w1|err w1]; [|discriminate].
  intros [= <-]. apply (restarts_schedule_paused p [] _ w w (paused p w));
    [apply only_nodes_refl | reflexivity .. |].
  symmetry. apply app_nil_r.
Qed.

Lemma Threshold_scrollToTargetElement_restarts (p : Props) (i : nat) (w w' : World) :
  Threshold.scrollToTargetElement p (ClickEvent i) w = Returned tt w' →
  restarts p [PreventDefault] w w'.
Proof.
  rewrite Threshold_scrollToTargetElement_eq. cbv zeta.
  destruct (if alwaysTrack p then _ else _) as [items|]; [|discriminate].
  destruct (build_easing p _) as [e w1|err w1]; [|discriminate].
  intros [= <-].
  apply (restarts_schedule_paused p [PreventDefault] _ (tell PreventDefault w) w);
    [apply Threshold_paused_only_nodes | reflexivity ..].
Qed.

(** C1, as amended: when [alwaysTrack] is false, [scrollToTarget] and
    [scrollToTargetElement] call [cancelAnimationFrame(window.AFRequestID)]
    before they request the new frame, so the callback recorded in
    [AFRequestID] is no longer scheduled, and if every scheduled callback was
    the recorded one then exactly one callback is scheduled afterwards; when
    [alwaysTrack] is true nothing is cancelled and the new callback is added
    to the scheduled ones. *)
Theorem new_animation_cancels_recorded_frame (p : Props) (w w' : World) :
  (∀ id, Band.scrollToTarget p (VString id) w = Returned tt w' →
         restarts p [] w w')
  ∧ (∀ i, Threshold.scrollToTargetElement p (ClickEvent i) w = Returned tt w' →
          restarts p [PreventDefault] w w').
Proof.
  split; intros x H.
  - eapply Band_scrollToTarget_restarts, H.
  - eapply Threshold_scrollToTargetElement_restarts, H.
Qed.

Lemma new_animation_cancels_recorded_frame_witness :
  ∃ w', Band.scrollToTarget (sample_props false) (VString "contact")
          (animating_world false) = Returned tt w'
        ∧ outstanding w' = [2%nat]
        ∧ log w' = [RemoveScrollListener; CancelAnimationFrame (Some 1%nat);
                    RequestAnimationFrame 2].
Proof.
  eexists. split; [vm_compute; reflexivity|].
  match goal with |- outstanding ?w' = _ ∧ _ =>
    destruct (new_animation_cancels_recorded_frame (sample_props false)
                (animating_world false) w') as [H _] end.
  specialize (H "contact" ltac:(vm_compute; reflexivity)).
  destruct H as (_ & _ & Hlog & _ & Hone).
  split; [apply Hone | exact Hlog].
  intros h Hh. apply list_elem_of_singleton in Hh. subst h. reflexivity.
Defined.

(** With [alwaysTrack] set, a second [scrollToTarget] leaves the recorded
    callback scheduled next to the new one. *)
Lemma always_tracking_leaves_two_frames :
  outstanding (animating_world true) = [1%nat]
  ∧ AFRequestID (animating_world true) = Some 1%nat
  ∧ ∃ w', Band.scrollToTarget (sample_props true) (VString "contact")
            (animating_world true) = Returned tt w'
          ∧ outstanding w' = [1; 2]%nat
          ∧ log w' = [RequestAnimationFrame 2].
Proof.
  split; [reflexivity|]. split; [reflexivity|].
  eexists. split; [vm_compute; reflexivity|]. split; reflexivity.
Qed.

(** The handle of the first frame of an animation is not recorded: two calls
    in a row, before any frame has run, leave two callbacks scheduled although
    [alwaysTrack] is false. *)
Lemma first_frame_is_not_recorded :
  ∃ w1 w2,
    Band.scrollToTarget (sample_props false) (VString "pricing") (tracking_world 0)
      = Returned tt w1
    ∧ Band.scrollToTarget (sample_props false) (VString "contact") w1
      = Returned tt w2
    ∧ AFRequestID w1 = None
    ∧ outstanding w2 = [0; 1]%nat.
Proof.
  eexists _, _. split; [vm_compute; reflexivity|].
  split; [vm_compute; reflexivity|]. split; reflexivity.
Qed.

(** ** The scroll listener around an animation *)

Lemma run_timeout_attaches (w : World) :
  (0 < timers w)%nat → scrollListener (world_of (run_timeout w)) = true.
Proof. unfold run_timeout. destruct (timers w); [lia | reflexivity]. Qed.

(** C2, as amended: with [alwaysTrack] false, starting an animation leaves
    the scroll listener detached, and a frame that schedules its successor
    does not touch the listener or the timeouts.  On the completion frame of
    [src/scrollactive.vue], [getCurrentItem] is run once at the written
    position and the item it returns is flagged, while [lastActiveItem], the
    notifications and the listener stay as they were; the listener comes back
    only when the timeout set by that frame fires.  On the completion frame of
    the other copy the listener is attached by the frame itself and the items
    are not touched. *)
Theorem listener_paused_while_animating (p : Props) (w : World) :
  alwaysTrack p = false →
  (∀ id w', Band.scrollToTarget p (VString id) w = Returned tt w' →
            scrollListener w' = false)
  ∧ (∀ i w', Threshold.scrollToTargetElement p (ClickEvent i) w = Returned tt w' →
             scrollListener w' = false)
  ∧ (∀ c ts, completes p c ts = false →
       Band.step p c ts w = Returned tt (continued p c ts w)
       ∧ Threshold.step p c ts w = Returned tt (continued p c ts w)
       ∧ scrollListener (continued p c ts w) = scrollListener w
       ∧ timers (continued p c ts w) = timers w)
  ∧ (∀ c ts cur w2, completes p c ts = true →
       Band.getCurrentItem p (scrolled (tick_perTick (tick p c ts)) w)
         = Returned cur w2 →
       ∃ w', Band.step p c ts w = Returned tt w'
             ∧ nodes w' = nodes (flag_current (activeClass p) cur w2)
             ∧ lastActiveItem w' = lastActiveItem w
             ∧ emitted w' = emitted w
             ∧ scrollListener w' = scrollListener w
             ∧ timers w' = S (timers w)
             ∧ log w' = log w ++ [ScrollTo (tick_perTick (tick p c ts)); SetTimeout 100]
             ∧ scrollListener (world_of (run_timeout w')) = true)
  ∧ (∀ c ts, completes p c ts = true →
       ∃ w', Threshold.step p c ts w = Returned tt w'
             ∧ scrollListener w' = true
             ∧ nodes w' = nodes w
             ∧ timers w' = timers w
             ∧ log w' = log w ++ [ScrollTo (tick_perTick (tick p c ts)); AddScrollListener]).
Proof.
  intros Htrack. repeat split.
  - intros id w' H. apply Band_scrollToTarget_restarts in H.
    unfold restarts in H. rewrite Htrack in H. tauto.
  - intros i w' H. apply Threshold_scrollToTargetElement_restarts in H.
    unfold restarts in H. rewrite Htrack in H. tauto.
  - rewrite Band_step_eq. cbv zeta. rewrite H. reflexivity.
  - rewrite Threshold_step_eq. rewrite H. reflexivity.
  - intros c ts cur w2 Hc Hcur. rewrite Band_step_eq. cbv zeta.
    rewrite Hc, Htrack, Hcur. eexists. split; [reflexivity|].
    pose proof (Band_getCurrentItem_only_nodes p
                  (scrolled (tick_perTick (tick p c ts)) w)) as Ho.
    rewrite Hcur in Ho. cbn [world_of] in Ho.
    assert (Hf : ∀ x, only_nodes x (flag_current (activeClass p) cur x))
      by (intros x; destruct cur; [apply only_nodes_refl .. | reflexivity]).
    pose proof (only_nodes_trans _ _ _ Ho (Hf w2)) as Ho2.
    repeat split; try (rewrite Ho2; reflexivity).
    + rewrite emitted_deferred. apply emitted_only_nodes in Ho2. rewrite Ho2.
      apply emitted_scrolled.
    + unfold deferred. cbn [log tell set_timers]. rewrite Ho2. cbn.
      rewrite <- app_assoc. reflexivity.
  - intros c ts Hc. rewrite Threshold_step_eq, Hc. eexists. split; [reflexivity|].
    repeat split. cbn. rewrite <- app_assoc. reflexivity.
Qed.

Lemma listener_paused_while_animating_witness :
  ∃ w1 w2 w3,
    Band.scrollToTarget (sample_props false) (VString "pricing") (tracking_world 0)
      = Returned tt w1
    ∧ run_frame (Band.step (sample_props false)) 0 1000 w1 = Returned tt w2
    ∧ run_frame (Band.step (sample_props false)) 1 1600 w2 = Returned tt w3
    ∧ scrollListener w1 = false
    ∧ scrollListener w2 = false
    ∧ scrollListener w3 = false
    ∧ timers w3 = 1%nat
    ∧ scrollListener (world_of (run_timeout w3)) = true.
Proof.
  eexists _, _, _.
  split; [vm_compute; reflexivity|].
  split; [vm_compute; reflexivity|].
  split; [vm_compute; reflexivity|].
  split.
  - match goal with |- scrollListener ?w' = _ =>
      destruct (listener_paused_while_animating (sample_props false)
                  (tracking_world 0) eq_refl) as (H & _);
      apply (H "pricing" w') end.
    vm_compute. reflexivity.
  - repeat split; reflexivity.
Defined.

(** In the second copy the completion frame attaches the listener itself:
    after the frame at elapsed time 600 the listener is attached and no
    timeout is pending. *)
Lemma Threshold_completion_reattaches_at_once :
  ∃ w1 w2 w3,
    user_click (Threshold.scrollToTargetElement (sample_props false)) 1
      (tracking_world 0) = Returned tt w1
    ∧ run_frame (Threshold.step (sample_props false)) 0 1000 w1 = Returned tt w2
    ∧ run_frame (Threshold.step (sample_props false)) 1 1600 w2 = Returned tt w3
    ∧ scrollListener w1 = false
    ∧ scrollListener w2 = false
    ∧ scrollListener w3 = true
    ∧ timers w3 = 0%nat
    ∧ nodes w3 = nodes w2
    ∧ log w3 = log w2 ++ [ScrollTo 780; AddScrollListener].
Proof.
  eexists _, _, _.
  split; [vm_compute; reflexivity|].
  split; [vm_compute; reflexivity|].
  split; [vm_compute; reflexivity|].
  repeat split; reflexivity.
Qed.

(** A timeout left by a completed animation fires during the next one and
    attaches the listener while a frame of that animation is still
    scheduled. *)
Lemma stale_timeout_reattaches_during_next_animation :
  ∃ w1 w2 w3 w4 w5,
    Band.scrollToTarget (sample_props false) (VString "pricing") (tracking_world 0)
      = Returned tt w1
    ∧ run_frame (Band.step (sample_props false)) 0 1000 w1 = Returned tt w2
    ∧ run_frame (Band.step (sample_props false)) 1 1600 w2 = Returned tt w3
    ∧ Band.scrollToTarget (sample_props false) (VString "contact") w3
      = Returned tt w4
    ∧ run_timeout w4 = Returned tt w5
    ∧ outstanding w5 = [2%nat]
    ∧ scrollListener w5 = true.
Proof.
  eexists _, _, _, _, _. split; [vm_compute; reflexivity|].
  split; [vm_compute; reflexivity|]. split; [vm_compute; reflexivity|].
  split; [vm_compute; reflexivity|]. split; [vm_compute; reflexivity|].
  split; reflexivity.
Qed.

(** ** The written positions *)




Lemma tick_restart_fields (c : Closure) (s : Q) :
  startingY (restart c s) = startingY c
  ∧ difference (restart c s) = difference c
  ∧ easing (restart c s) = easing c
  ∧ start (restart c s) = Some s.
Proof. repeat split. Qed.

(** The fraction of a frame lies in [0, 1], and the closure it hands on is
    started by its timestamp. *)
Lemma tick_in_range (p : Props) (c : Closure) (t ts : Q) :
  0 < duration p → started_by c t → t <= ts →
  let k := tick p c ts in
  0 <= tick_progressPercentage k ∧ tick_progressPercentage k <= 1
  ∧ started_by (restart c (tick_start k)) ts.
Proof.
  intros Hd Hs Hle. unfold started_by in *. cbn [start restart].
  unfold tick. cbn [tick_progressPercentage tick_start].
  set (s := match start c with
            | Some s => if Qeq_bool s 0 then ts else s
            | None => ts end).
  assert (Hs' : s <= ts ∧ (s == 0 → ts == 0)).
  { subst s. destruct (start c) as [s0|]; [|split; [lra | tauto]].
    destruct (Qeq_bool s0 0) eqn:E; [split; [lra | tauto]|].
    destruct Hs as [H1 H2]. split; [lra|].
    intros H0. apply Qeq_bool_neq in E. contradiction. }
  destruct Hs' as [Hs1 Hs2].
  assert (0 <= (ts - s) / duration p).
  { apply Qle_shift_div_l; [exact Hd | lra]. }
  destruct (Qle_bool 1 ((ts - s) / duration p)) eqn:E.
  - repeat split; try lra; assumption.
  - repeat split; try assumption.
    destruct (Qlt_le_dec ((ts - s) / duration p) 1) as [Hlt|Hge]; [lra|].
    apply Qle_bool_iff in Hge. congruence.
Qed.





Lemma frames_only_nodes w w' : only_nodes w w' → frames w' = frames w.
Proof. intros ->. reflexivity. Qed.

Lemma hash_flag c w j i : hash (node (flag c w j) i) = hash (node w i).
Proof.
  rewrite flag_eq, node_update. destruct (decide _) as [[-> _]|_]; reflexivity.
Qed.

Lemma hash_unflag_all c items : ∀ w i,
  hash (node (unflag_all c items w) i) = hash (node w i).
Proof.
  induction items as [|j l IH]; intros w i; [reflexivity|].
  rewrite unflag_all_cons, IH. apply hash_unflag.
Qed.

Lemma Threshold_paused_session (p : Props) (i j : nat) (items : list nat)
    (w : World) (e : Q → Q) :
  let w1 := Threshold_paused p i items (tell PreventDefault w) in
  session w1 (resolve w1 j) e = session w (resolve w j) e
  ∧ build_easing p w1 =
      match build_easing p w with
      | Returned e' _ => Returned e' w1
      | Thrown err _ => Thrown err w1
      end.
Proof.
  cbv zeta.
  pose proof (Threshold_paused_only_nodes p i items (tell PreventDefault w)) as Ho.
  set (w1 := Threshold_paused p i items (tell PreventDefault w)) in *.
  assert (scrollY w1 = scrollY w ∧ elements w1 = elements w
          ∧ bezierEasing w1 = bezierEasing w) as (Hy & He & Hb).
  { rewrite Ho. unfold paused. destruct (alwaysTrack p); repeat split. }
  assert (resolve w1 j = resolve w j) as Hr.
  { unfold resolve. rewrite He. f_equal. f_equal. subst w1.
    unfold Threshold_paused. destruct (alwaysTrack p); [reflexivity|].
    rewrite hash_flag, hash_unflag_all. reflexivity. }
  split.
  - unfold session. rewrite Hr, Hy. reflexivity.
  - unfold build_easing. rewrite Hb. destruct (bezierEasing w _ _ _ _); reflexivity.
Qed.

Lemma last_schedule c w : last (frames (schedule c w)) = Some (nextHandle w, c).
Proof. cbn. apply last_snoc. Qed.

Lemma written_tell e w :
  written (tell e w) =
    written w ++ match e with ScrollTo y => [y] | _ => [] end.
Proof.
  unfold written. cbn [log tell]. rewrite omap_app. destruct e; reflexivity.
Qed.

Lemma written_only_nodes w w' : only_nodes w w' → written w' = written w.
Proof. intros ->. reflexivity. Qed.

Lemma written_Band_step (p : Props) (c : Closure) (ts : Q) (w : World) :
  written (world_of (Band.step p c ts w)) = written w ++ [tick_perTick (tick p c ts)].
Proof.
  rewrite Band_step_eq. cbv zeta.
  assert (Hs : written (scrolled (tick_perTick (tick p c ts)) w)
               = written w ++ [tick_perTick (tick p c ts)])
    by (unfold scrolled; rewrite written_tell; reflexivity).
  destruct (completes p c ts).
  - destruct (alwaysTrack p); [exact Hs|].
    pose proof (Band_getCurrentItem_only_nodes p
                  (scrolled (tick_perTick (tick p c ts)) w)) as Ho.
    apply written_only_nodes in Ho.
    destruct (Band.getCurrentItem p _) as [cur w2|e w2]; cbn [world_of] in *.
    + unfold deferred. rewrite written_tell, app_nil_r.
      change (written (set_timers _ ?x)) with (written x).
      destruct cur; cbn [flag_current]; try (rewrite Ho; exact Hs).
      change (written (flag (activeClass p) w2 i)) with (written w2).
      rewrite Ho. exact Hs.
    + rewrite Ho. exact Hs.
  - cbn [world_of]. unfold continued. cbv zeta.
    change (written (set_AFRequestID _ ?x)) with (written x).
    unfold schedule. rewrite written_tell, app_nil_r. exact Hs.
Qed.

Lemma written_Threshold_step (p : Props) (c : Closure) (ts : Q) (w : World) :
  written (world_of (Threshold.step p c ts w)) = written w ++ [tick_perTick (tick p c ts)].
Proof.
  rewrite Threshold_step_eq.
  assert (Hs : written (scrolled (tick_perTick (tick p c ts)) w)
               = written w ++ [tick_perTick (tick p c ts)])
    by (unfold scrolled; rewrite written_tell; reflexivity).
  destruct (completes p c ts); cbn [world_of].
  - unfold attach. rewrite written_tell, app_nil_r. exact Hs.
  - unfold continued. cbv zeta.
    change (written (set_AFRequestID _ ?x)) with (written x).
    unfold schedule. rewrite written_tell, app_nil_r. exact Hs.
Qed.

Lemma frames_Band_step_complete (p : Props) (c : Closure) (ts : Q) (w : World) :
  completes p c ts = true → frames (world_of (Band.step p c ts w)) = frames w.
Proof.
  intros Hc. rewrite Band_step_eq. cbv zeta. rewrite Hc.
  destruct (alwaysTrack p); [reflexivity|].
  pose proof (Band_getCurrentItem_only_nodes p
                (scrolled (tick_perTick (tick p c ts)) w)) as Ho.
  apply frames_only_nodes in Ho.
  destruct (Band.getCurrentItem p _) as [cur w2|e w2]; cbn [world_of] in *.
  - destruct cur; exact Ho.
  - exact Ho.
Qed.

Lemma frames_Threshold_step_complete (p : Props) (c : Closure) (ts : Q) (w : World) :
  completes p c ts = true → frames (world_of (Threshold.step p c ts w)) = frames w.
Proof. intros Hc. rewrite Threshold_step_eq, Hc. reflexivity. Qed.




(** ** The argument of [scrollToTarget] *)

(** C7, as amended: [scrollToTarget] throws its own error exactly for an
    argument that is not a string, and then nothing has changed; for a string
    it starts an animation whether or not the string resolves to an element
    (given that the easing library accepts the configured values), and for a
    string that resolves to nothing the animation is aimed at a target
    distance of 0. *)
Theorem scrollToTarget_rejects_only_non_strings (p : Props) (v : JsValue) (w : World) :
  ((∀ id, v ≠ VString id) →
     Band.scrollToTarget p v w =
       Thrown (mkError "scrollToTarget method requires a DOM Id as parameter.") w)
  ∧ (∀ id e, v = VString id → build_easing p w = Returned e w →
       Band.scrollToTarget p v w =
         Returned tt (schedule (session w (lookup_id id (elements w)) e) (paused p w))
       ∧ (lookup_id id (elements w) = None →
          difference (session w (lookup_id id (elements w)) e) == 0 - scrollY w))
  ∧ (∀ e, build_easing p w = Returned e w →
       (∃ err w', Band.scrollToTarget p v w = Thrown err w') ↔ ∀ id, v ≠ VString id).
Proof.
  assert (Hbad : (∀ id, v ≠ VString id) →
            Band.scrollToTarget p v w =
              Thrown (mkError "scrollToTarget method requires a DOM Id as parameter.") w).
  { intros Hns. destruct v; try reflexivity. exfalso. eapply Hns. reflexivity. }
  assert (Hgood : ∀ id e, v = VString id → build_easing p w = Returned e w →
            Band.scrollToTarget p v w =
              Returned tt (schedule (session w (lookup_id id (elements w)) e) (paused p w))).
  { intros id e -> He. rewrite Band_scrollToTarget_eq. cbv zeta.
    rewrite build_easing_paused, He. reflexivity. }
  split; [exact Hbad|]. split.
  - intros id e Hv He. split; [apply Hgood; assumption|].
    intros ->. unfold session. cbn [difference getOffsetTop].
    change (inject_Z 0) with 0. reflexivity.
  - intros e He. split.
    + intros (err & w' & Hthrow) id Hv.
      rewrite (Hgood id e Hv He) in Hthrow. discriminate.
    + intros Hns. eauto.
Qed.

Lemma scrollToTarget_rejects_only_non_strings_witness :
  Band.scrollToTarget (sample_props false) (VNumber 3) (tracking_world 300)
    = Thrown (mkError "scrollToTarget method requires a DOM Id as parameter.")
        (tracking_world 300)
  ∧ returns (Band.scrollToTarget (sample_props false) (VString "pricing")
               (tracking_world 300)) = true.
Proof.
  destruct (scrollToTarget_rejects_only_non_strings (sample_props false)
              (VNumber 3) (tracking_world 300)) as (Hbad & _).
  destruct (scrollToTarget_rejects_only_non_strings (sample_props false)
              (VString "pricing") (tracking_world 300)) as (_ & Hgood & _).
  split.
  - apply Hbad. intros id. discriminate.
  - destruct (Hgood "pricing" (λ x, x) eq_refl eq_refl) as [-> _]. reflexivity.
Defined.

(** A string that resolves to no element is accepted: the call returns, the
    listener is detached and a frame is scheduled. *)
Lemma scrollToTarget_accepts_unresolved_string :
  lookup_id "missing" (elements (tracking_world 300)) = None
  ∧ scrollListener (tracking_world 300) = true
  ∧ ∃ w', Band.scrollToTarget (sample_props false) (VString "missing")
            (tracking_world 300) = Returned tt w'
          ∧ scrollListener w' = false
          ∧ outstanding w' = [0%nat].
Proof.
  split; [reflexivity|]. split; [reflexivity|].
  eexists. split; [vm_compute; reflexivity|]. split; reflexivity.
Qed.

(** ** Teardown *)

(** C10: [beforeDestroy] detaches the scroll listener and cancels the frame
    recorded in [AFRequestID] and does nothing else: the nodes keep their click
    binding.  A click on a bound item after teardown runs [itemClickHandler],
    which (given that the easing library accepts the configured values)
    schedules an animation frame towards the item's target. *)
Theorem teardown_keeps_click_handlers (p : Props) (w : World) :
  beforeDestroy p w = Returned tt (cancel (detach w))
  ∧ nodes (cancel (detach w)) = nodes w
  ∧ scrollListener (cancel (detach w)) = false
  ∧ frames (cancel (detach w)) = drop_frame (AFRequestID w) (frames w)
  ∧ log (cancel (detach w)) =
      log w ++ [RemoveScrollListener; CancelAnimationFrame (AFRequestID w)]
  ∧ (∀ i e, clickBound (node w i) = true → build_easing p w = Returned e w →
       ∃ w'', user_click (Band.itemClickHandler p) i (cancel (detach w))
                = Returned tt w''
              ∧ last (frames w'') = Some (nextHandle w, session w (resolve w i) e)
              ∧ last (emitted w'') = Some (Emit (ClickEvent i) [item i])).
Proof.
  split; [reflexivity|]. split; [reflexivity|]. split; [reflexivity|].
  split; [reflexivity|]. split; [cbn; rewrite <- app_assoc; reflexivity|].
  intros i e Hb He. unfold user_click.
  change (node (cancel (detach w)) i) with (node w i). rewrite Hb.
  rewrite Band_itemClickHandler_eq, Band_scrollToTarget_eq. cbv zeta.
  rewrite build_easing_paused.
  assert (build_easing p (tell PreventDefault (cancel (detach w)))
          = Returned e (tell PreventDefault (cancel (detach w)))) as ->.
  { unfold build_easing in *. cbn [bezierEasing tell cancel detach set_frames
      set_scrollListener].
    destruct (bezierEasing w _ _ _ _); [|discriminate]. congruence. }
  eexists. split; [reflexivity|]. split.
  - change (frames (tell ?x ?y)) with (frames y). rewrite last_schedule.
    unfold paused. destruct (alwaysTrack p); reflexivity.
  - rewrite emitted_tell. cbn [is_Emit]. apply last_snoc.
Qed.

Lemma teardown_keeps_click_handlers_witness :
  ∃ w'', user_click (Band.itemClickHandler (sample_props false)) 1
           (cancel (detach (tracking_world 0))) = Returned tt w''
         ∧ last (frames w'')
           = Some (0%nat, session (tracking_world 0)
                            (Some (mkElement 800 800 (Some body_element))) (λ x, x)).
Proof.
  destruct (teardown_keeps_click_handlers (sample_props false) (tracking_world 0))
    as (_ & _ & _ & _ & _ & Hclick).
  destruct (Hclick 1%nat (λ x, x) eq_refl eq_refl) as (w'' & Hrun & Hlast & _).
  exists w''. split; [exact Hrun | exact Hlast].
Defined.

Lemma at_most_one_item_flagged_after_check_witness :
  ∃ w1 w2,
    Band.onScroll (sample_props false) ScrollEvent (tracking_world 810)
      = Returned tt w1
    ∧ Threshold.onScroll (sample_props false) ScrollEvent (tracking_world 810)
      = Returned tt w2
    ∧ (flagged (sample_props false) w1 1 ∧ ¬ flagged (sample_props false) w1 0)
    ∧ (flagged (sample_props false) w2 1 ∧ ¬ flagged (sample_props false) w2 0).
Proof.
  eexists _, _.
  split; [vm_compute; reflexivity|]. split; [vm_compute; reflexivity|].
  destruct (at_most_one_item_flagged_after_check (sample_props false) ScrollEvent
              (tracking_world 810) [0; 1; 2]%nat eq_refl) as [HB HT].
  { repeat constructor. }
  split.
  - match goal with |- flagged _ ?w' _ ∧ _ =>
      destruct (HB w' ltac:(vm_compute; reflexivity)) as (_ & Hiff & _) end.
    split.
    + apply Hiff; [set_solver | vm_compute; reflexivity].
    + intros H. apply Hiff in H; [|set_solver]. vm_compute in H. discriminate.
  - match goal with |- flagged _ ?w' _ ∧ _ =>
      destruct (HT w' ltac:(vm_compute; reflexivity)) as (_ & Hiff & _) end.
    split.
    + apply Hiff; [set_solver | vm_compute; reflexivity].
    + intros H. apply Hiff in H; [|set_solver]. vm_compute in H. discriminate.
Defined.

(** A click emits a notification although no check has run and
    [lastActiveItem] has not changed. *)
Lemma click_emits_without_check :
  ∃ w', user_click (Band.itemClickHandler (sample_props false)) 1 (tracking_world 0)
          = Returned tt w'
        ∧ log w' = [PreventDefault; RemoveScrollListener; CancelAnimationFrame None;
                    RequestAnimationFrame 0; Emit (ClickEvent 1) [item 1%nat]]
        ∧ emitted w' = [Emit (ClickEvent 1) [item 1%nat]]
        ∧ lastActiveItem w' = lastActiveItem (tracking_world 0).
Proof.
  eexists. split; [vm_compute; reflexivity|]. repeat split; reflexivity.
Qed.

(** * Further properties *)

(** ** Registration, once more *)

Lemma list_eq_total {A} `{!Inhabited A} (l1 l2 : list A) :
  length l1 = length l2 →
  (∀ i, (i < length l1)%nat → l1 !!! i = l2 !!! i) → l1 = l2.
Proof.
  intros Hlen H. apply (list_eq_same_length l1 l2 (length l1)); [congruence | reflexivity|].
  intros i x y Hi Hx Hy.
  apply list_lookup_total_correct in Hx, Hy. rewrite <- Hx, <- Hy. apply H, Hi.
Qed.

Lemma bind_eq b w i :
  bind b w i = set_nodes (λ ns, <[i := with_binding b (ns !!! i)]> ns) w.
Proof. reflexivity. Qed.

Lemma bind_all_cons b i l w : bind_all b (i :: l) w = bind_all b l (bind b w i).
Proof. reflexivity. Qed.

Lemma forEach_bind (b : bool) (items : list nat) : ∀ w,
  forEach items (set_clickBound b) w = Returned tt (bind_all b items w).
Proof.
  induction items as [|i l IH]; intros w; [reflexivity|].
  unfold forEach in *. cbn [forEach_with]. unfold mbind, Js_bind.
  change (set_clickBound b i w) with (Returned tt (bind b w i)).
  cbn iota beta. rewrite IH. reflexivity.
Qed.

Lemma bind_all_only_nodes b items : ∀ w, only_nodes w (bind_all b items w).
Proof.
  induction items as [|i l IH]; intros w; [apply only_nodes_refl|].
  rewrite bind_all_cons. eapply only_nodes_trans; [|apply IH]. reflexivity.
Qed.

Lemma length_bind_all b items : ∀ w,
  length (nodes (bind_all b items w)) = length (nodes w).
Proof.
  induction items as [|i l IH]; intros w; [reflexivity|].
  rewrite bind_all_cons, IH. cbn. apply length_insert.
Qed.

Lemma node_bind_all b items : ∀ w j,
  node (bind_all b items w) j =
    if decide (j ∈ items ∧ (j < length (nodes w))%nat)
    then with_binding b (node w j) else node w j.
Proof.
  induction items as [|i l IH]; intros w j.
  - cbn. rewrite decide_False; [reflexivity|]. intros [H _]. inversion H.
  - rewrite bind_all_cons, IH, bind_eq, node_update. cbn [nodes set_nodes].
    rewrite length_insert.
    destruct (decide (j = i ∧ _)) as [[-> Hlt]|Hne].
    + rewrite (decide_True (P := i ∈ i :: l ∧ _)) by (split; [left | exact Hlt]).
      destruct (decide _); reflexivity.
    + destruct (decide (j ∈ l ∧ _)) as [[Hin Hlt]|Hnl].
      * rewrite decide_True by (split; [right; exact Hin | exact Hlt]). reflexivity.
      * rewrite decide_False; [reflexivity|].
        intros [Hin Hlt]. apply elem_of_cons in Hin as [->|Hin]; tauto.
Qed.

Lemma select_from_bound (ns : list Anchor) : ∀ k i,
  i ∈ select_from k ns → (k ≤ i < k + length ns)%nat.
Proof.
  induction ns as [|a ns IH]; intros k i Hi; [inversion Hi|].
  cbn [select_from] in Hi. cbn [length].
  destruct (matches_item a).
  - apply elem_of_cons in Hi as [->|Hi]; [lia|]. apply IH in Hi. lia.
  - apply IH in Hi. lia.
Qed.

Lemma discovered_in_range w i : i ∈ discovered w → (i < length (nodes w))%nat.
Proof. intros H. apply select_from_bound in H. lia. Qed.

Lemma select_from_ext (ns ns' : list Anchor) :
  Forall2 (λ a a', matches_item a = matches_item a') ns ns' →
  ∀ k, select_from k ns = select_from k ns'.
Proof.
  induction 1 as [|a a' ns ns' Ha _ IH]; intros k; [reflexivity|].
  cbn [select_from]. rewrite Ha, !IH. reflexivity.
Qed.

Lemma discovered_bind_all b items w :
  discovered (bind_all b items w) = discovered w.
Proof.
  unfold discovered. apply select_from_ext.
  apply Forall2_same_length_lookup_2; [apply length_bind_all|].
  intros i a a' Ha Ha'.
  apply list_lookup_total_correct in Ha, Ha'.
  fold (node (bind_all b items w) i) in Ha. fold (node w i) in Ha'.
  rewrite node_bind_all in Ha. subst a a'.
  destruct (decide _); reflexivity.
Qed.

Lemma hash_bind_all b items w i :
  hash (node (bind_all b items w) i) = hash (node w i).
Proof. rewrite node_bind_all. destruct (decide _); reflexivity. Qed.

Lemma resolve_same (w w' : World) (i : nat) :
  hash (node w' i) = hash (node w i) → elements w' = elements w →
  resolve w' i = resolve w i.
Proof. unfold resolve. intros -> ->. reflexivity. Qed.

Lemma list_find_unresolved_same (w w' : World) (l : list nat) :
  (∀ i, resolve w' i = resolve w i) →
  list_find (unresolved w') l = list_find (unresolved w) l.
Proof.
  intros H. induction l as [|x l IH]; [reflexivity|].
  cbn [list_find]. rewrite IH.
  destruct (decide (unresolved w' x)) as [H1|H1],
           (decide (unresolved w x)) as [H2|H2]; try reflexivity;
    unfold unresolved in *; rewrite H in H1; contradiction.
Qed.

Lemma setScrollactiveItems_outcome (p : Props) (w : World) :
  setScrollactiveItems p w =
    match list_find (unresolved w) (discovered w) with
    | Some (_, i) => Thrown (mkError (not_found_message (hash (node w i)))) w
    | None =>
        Returned tt (bind_all (clickToScroll p) (discovered w)
                       (set_scrollactiveItems (Some (discovered w)) w))
    end.
Proof.
  rewrite setScrollactiveItems_unfold. cbv zeta. rewrite validate_loop.
  unfold discovered. destruct (list_find _ _) as [[k i]|]; [reflexivity|].
  apply forEach_bind.
Qed.

(** X1: a successful [setScrollactiveItems] registers exactly the discovered
    items; each of them ends with the click handler bound when [clickToScroll]
    is set and unbound when it is not, whatever its binding was; every other
    node, also one that was registered and bound before, is left as it was. *)
Theorem setScrollactiveItems_binds_discovered (p : Props) (w w' : World) :
  setScrollactiveItems p w = Returned tt w' →
  scrollactiveItems w' = Some (discovered w)
  ∧ only_nodes (set_scrollactiveItems (Some (discovered w)) w) w'
  ∧ length (nodes w') = length (nodes w)
  ∧ ∀ i, node w' i =
           if decide (i ∈ discovered w)
           then with_binding (clickToScroll p) (node w i) else node w i.
Proof.
  rewrite setScrollactiveItems_outcome.
  destruct (list_find _ _) as [[k x]|]; [discriminate|]. intros [= <-].
  pose proof (bind_all_only_nodes (clickToScroll p) (discovered w)
                (set_scrollactiveItems (Some (discovered w)) w)) as Ho.
  split; [rewrite Ho; reflexivity|]. split; [exact Ho|].
  split; [rewrite length_bind_all; reflexivity|].
  intros i. rewrite node_bind_all. cbn [nodes set_scrollactiveItems].
  change (node (set_scrollactiveItems _ w) i) with (node w i).
  destruct (decide (i ∈ discovered w)) as [Hin|Hn].
  - rewrite decide_True; [reflexivity|]. split; [exact Hin|].
    apply discovered_in_range, Hin.
  - rewrite decide_False; [reflexivity | tauto].
Qed.

Lemma setScrollactiveItems_binds_discovered_witness :
  ∃ w', setScrollactiveItems (sample_props true) (sample_world 0) = Returned tt w'
        ∧ scrollactiveItems w' = Some [0; 1; 2]%nat
        ∧ clickBound (node w' 1) = true.
Proof.
  eexists. split; [vm_compute; reflexivity|].
  match goal with |- scrollactiveItems ?w' = _ ∧ _ =>
    destruct (setScrollactiveItems_binds_discovered (sample_props true)
                (sample_world 0) w' ltac:(vm_compute; reflexivity))
      as (Hreg & _ & _ & Hnode) end.
  split; [exact Hreg|]. rewrite Hnode. reflexivity.
Defined.

(** X2: registering again on an unchanged document changes nothing: a second
    [setScrollactiveItems] (the [updated] hook) returns the world the first
    one left, so no handler is bound twice. *)
Theorem setScrollactiveItems_idempotent (p : Props) (w w' : World) :
  setScrollactiveItems p w = Returned tt w' →
  setScrollactiveItems p w' = Returned tt w' ∧ updated p w' = Returned tt w'.
Proof.
  intros Hrun. assert (setScrollactiveItems p w' = Returned tt w') as H;
    [|split; [exact H | exact H]].
  pose proof (setScrollactiveItems_binds_discovered p w w' Hrun)
    as (Hreg & Ho & Hlen & Hnode).
  rewrite setScrollactiveItems_outcome in Hrun.
  destruct (list_find (unresolved w) (discovered w)) as [[k x]|] eqn:Efind;
    [discriminate|].
  injection Hrun as Hw'.
  assert (Hdisc : discovered w' = discovered w).
  { rewrite <- Hw'. rewrite discovered_bind_all. reflexivity. }
  assert (Hres : ∀ i, resolve w' i = resolve w i).
  { intros i. apply resolve_same.
    - rewrite Hnode. destruct (decide _); reflexivity.
    - rewrite Ho. reflexivity. }
  rewrite setScrollactiveItems_outcome, Hdisc.
  rewrite (list_find_unresolved_same w w' _ Hres), Efind. f_equal.
  assert (set_scrollactiveItems (Some (discovered w)) w' = w') as ->.
  { clear -Hreg. destruct w'. cbn in *. rewrite Hreg. reflexivity. }
  assert (Hn : nodes (bind_all (clickToScroll p) (discovered w) w') = nodes w').
  { apply list_eq_total; [apply length_bind_all|].
    intros i _.
    fold (node (bind_all (clickToScroll p) (discovered w) w') i).
    fold (node w' i). rewrite node_bind_all.
    destruct (decide _) as [[Hin _]|_]; [|reflexivity].
    rewrite Hnode, decide_True by exact Hin. reflexivity. }
  rewrite (bind_all_only_nodes (clickToScroll p) (discovered w) w'), Hn.
  symmetry. apply only_nodes_refl.
Qed.

Lemma setScrollactiveItems_idempotent_witness :
  ∃ w', setScrollactiveItems (sample_props false) (sample_world 0) = Returned tt w'
        ∧ setScrollactiveItems (sample_props false) w' = Returned tt w'.
Proof.
  eexists. split; [vm_compute; reflexivity|].
  match goal with |- setScrollactiveItems _ ?w' = _ =>
    apply (setScrollactiveItems_idempotent (sample_props false) (sample_world 0) w') end.
  vm_compute. reflexivity.
Defined.

(** ** Checks, once more *)

Lemma lastActiveItem_flag_current c cur w :
  lastActiveItem (flag_current c cur w) = lastActiveItem w.
Proof. destruct cur; reflexivity. Qed.

(** X3: in the second copy a check always returns when a list is registered
    and records the item it computes; it notifies only when that item differs
    from [lastActiveItem] and [lastActiveItem] is an item, so a transition out
    of "no item" ([null] or [undefined]) is never notified, at mount or
    later. *)
Theorem Threshold_onScroll_notifies_only_from_an_item
    (p : Props) (ev : Event) (w : World) (items : list nat) :
  scrollactiveItems w = Some items →
  let cur := from_option item undefined
               (last_qualifying (threshold_reached p w) items) in
  ∃ w', Threshold.onScroll p ev w = Returned tt w'
        ∧ lastActiveItem w' = cur
        ∧ emitted w' = emitted w ++
            (if decide (cur ≠ lastActiveItem w)
             then if truthy (lastActiveItem w)
                  then [Emit ev [cur; lastActiveItem w]] else []
             else [])
        ∧ (truthy (lastActiveItem w) = false → emitted w' = emitted w).
Proof.
  intros Hitems cur. rewrite (Threshold_onScroll_eq _ _ _ _ Hitems).
  rewrite foldl_choose_last. fold cur. eexists. split; [reflexivity|].
  unfold Threshold_after_scan. cbv zeta.
  rewrite lastActiveItem_flag_current, emitted_flag_current.
  rewrite (unflag_all_only_nodes _ _ w). cbn [lastActiveItem set_nodes].
  assert (He : ∀ x, emitted (set_lastActiveItem cur x) = emitted x) by reflexivity.
  destruct (decide (cur ≠ lastActiveItem w)) as [Hd|Hd].
  - split; [reflexivity|]. rewrite He.
    destruct (truthy (lastActiveItem w)).
    + rewrite emitted_tell. cbn [is_Emit]. split; [reflexivity | discriminate].
    + rewrite app_nil_r. split; [reflexivity | intros _; reflexivity].
  - assert (cur = lastActiveItem w) as Heq
      by (destruct (decide (cur = lastActiveItem w)); [assumption | contradiction]).
    rewrite app_nil_r. split; [symmetry; exact Heq|].
    split; [reflexivity | intros _; reflexivity].
Qed.

Lemma Threshold_onScroll_notifies_only_from_an_item_witness :
  ∃ w', Threshold.onScroll (sample_props false) ScrollEvent
          (set_lastActiveItem undefined (tracking_world 810)) = Returned tt w'
        ∧ lastActiveItem w' = item 1
        ∧ emitted w' = [].
Proof.
  destruct (Threshold_onScroll_notifies_only_from_an_item (sample_props false)
              ScrollEvent (set_lastActiveItem undefined (tracking_world 810))
              [0; 1; 2]%nat eq_refl) as (w' & Hrun & Hlast & _ & Hsilent).
  exists w'. split; [exact Hrun|]. split.
  - rewrite Hlast. vm_compute. reflexivity.
  - apply Hsilent. reflexivity.
Defined.

(** X4: [getCurrentItem] of [src/scrollactive.vue] throws a TypeError when no
    list is registered, with nothing changed, and when the target of a
    registered item is no longer in the document; in that case the items up
    to and including the first such item have lost the active class, and
    [onScroll] ends with the same error before it logs, emits or records
    anything.  Otherwise it returns the last item whose band contains
    [window.scrollY], or null. *)
Theorem Band_getCurrentItem_outcome (p : Props) (ev : Event) (w : World) :
  match scrollactiveItems w with
  | None =>
      Band.getCurrentItem p w = Thrown TypeError w
      ∧ Band.onScroll p ev w = Thrown TypeError w
  | Some items =>
      match list_find (unresolved w) items with
      | Some (k, _) =>
          let w' := unflag_all (activeClass p) (take (S k) items) w in
          Band.getCurrentItem p w = Thrown TypeError w'
          ∧ Band.onScroll p ev w = Thrown TypeError w'
          ∧ only_nodes w w'
      | None =>
          Band.getCurrentItem p w =
            Returned
              (from_option item null (last_qualifying (band_contains p w) items))
              (unflag_all (activeClass p) items w)
      end
  end.
Proof.
  destruct (scrollactiveItems w) as [items|] eqn:Hitems.
  - rewrite Band_onScroll_eq, (Band_getCurrentItem_eq _ _ _ Hitems), band_scan.
    destruct (list_find _ _) as [[k x]|].
    + cbv zeta. split; [reflexivity|]. split; [reflexivity|].
      unfold only_nodes. apply unflag_all_only_nodes.
    + rewrite foldl_choose_last. reflexivity.
  - rewrite Band_onScroll_eq.
    unfold Band.getCurrentItem, mbind, Js_bind, gets, registered_items.
    rewrite Hitems. split; reflexivity.
Qed.

Lemma band_contains_same (p : Props) (w w' : World) (i : nat) :
  resolve w' i = resolve w i → scrollY w' = scrollY w →
  band_contains p w' i ↔ band_contains p w i.
Proof. unfold band_contains. intros -> ->. reflexivity. Qed.

Lemma threshold_reached_same (p : Props) (w w' : World) (i : nat) :
  resolve w' i = resolve w i → scrollY w' = scrollY w →
  threshold_reached p w' i ↔ threshold_reached p w i.
Proof. unfold threshold_reached. intros -> ->. reflexivity. Qed.

Lemma hash_flag_current c cur w i :
  hash (node (flag_current c cur w) i) = hash (node w i).
Proof. destruct cur; try reflexivity. apply hash_flag. Qed.

Lemma length_flag_current c cur w :
  length (nodes (flag_current c cur w)) = length (nodes w).
Proof. destruct cur; try reflexivity. cbn. apply length_insert. Qed.

Lemma Band_after_scan_checked p ev cur w1 :
  checked (activeClass p) cur w1 (Band_after_scan p ev cur w1).
Proof.
  unfold Band_after_scan, checked. cbv zeta.
  rewrite lastActiveItem_flag_current.
  destruct (decide (cur ≠ _)) as [Hd|Hd].
  - repeat split; destruct cur; reflexivity.
  - assert (cur = lastActiveItem w1) as Heq.
    { destruct (decide (cur = lastActiveItem w1)) as [E|E]; [exact E|].
      exfalso. apply Hd. exact E. }
    repeat split; try (destruct cur; reflexivity). symmetry. exact Heq.
Qed.

Lemma Threshold_after_scan_checked p ev cur w1 :
  checked (activeClass p) cur w1 (Threshold_after_scan p ev cur w1).
Proof.
  unfold Threshold_after_scan, checked. cbv zeta.
  rewrite lastActiveItem_flag_current.
  destruct (decide (cur ≠ _)) as [Hd|Hd].
  - destruct (truthy (lastActiveItem w1)); repeat split; destruct cur; reflexivity.
  - assert (cur = lastActiveItem w1) as Heq.
    { destruct (decide (cur = lastActiveItem w1)) as [E|E]; [exact E|].
      exfalso. apply Hd. exact E. }
    repeat split; try (destruct cur; reflexivity). symmetry. exact Heq.
Qed.

Lemma checked_resolve c cur items w w' :
  checked c cur (unflag_all c items w) w' →
  scrollactiveItems w' = scrollactiveItems w
  ∧ scrollY w' = scrollY w
  ∧ length (nodes w') = length (nodes w)
  ∧ ∀ i, resolve w' i = resolve w i.
Proof.
  intros (Hn & He & Hy & Hi & _).
  rewrite Hi, Hy, Hn, length_flag_current, unflag_all_length.
  rewrite (unflag_all_only_nodes c items w). repeat split.
  intros i. apply resolve_same.
  - unfold node. rewrite Hn.
    fold (node (flag_current c cur (unflag_all c items w)) i).
    rewrite hash_flag_current. apply hash_unflag_all.
  - rewrite He, (unflag_all_only_nodes c items w). reflexivity.
Qed.

(** X5: in the second copy an item whose hash resolves to no element counts
    as a section at document offset 0.  When such an item is registered, the
    scroll position is at least [0 - offset] and no item after it in the
    list has reached its threshold, the check returns, records that item as
    [lastActiveItem] and leaves the active class on it and on no other
    registered item. *)
Theorem Threshold_onScroll_selects_item_without_target
    (p : Props) (ev : Event) (w : World) (pre post : list nat) (i : nat) :
  scrollactiveItems w = Some (pre ++ i :: post) →
  unresolved w i →
  (i < length (nodes w))%nat →
  0 - offset p <= scrollY w →
  Forall (λ j, ¬ threshold_reached p w j) post →
  ∃ w', Threshold.onScroll p ev w = Returned tt w'
        ∧ lastActiveItem w' = item i
        ∧ ∀ j, j ∈ pre ++ i :: post → flagged p w' j ↔ j = i.
Proof.
  intros Hitems Hu Hlen Hy Hpost.
  rewrite (Threshold_onScroll_eq _ _ _ _ Hitems), foldl_choose_last.
  assert (last_qualifying (threshold_reached p w) (pre ++ i :: post) = Some i) as Hlq.
  { unfold last_qualifying. rewrite filter_app, filter_cons, decide_True.
    - rewrite (filter_none _ post) by (intros x Hx; exact (proj1 (Forall_forall _ _) Hpost x Hx)).
      apply last_snoc.
    - unfold threshold_reached. rewrite Hu. exact Hy. }
  rewrite Hlq. cbn [from_option].
  eexists. split; [reflexivity|].
  pose proof (Threshold_after_scan_checked p ev (item i)
                (unflag_all (activeClass p) (pre ++ i :: post) w))
    as (Hn & _ & _ & _ & Hlast).
  split; [exact Hlast|].
  intros j Hj.
  rewrite (flagged_after_scan p w _ (pre ++ i :: post) (Some i) undefined
             eq_refl (λ k Hk, eq_ind i (λ x, (x < length (nodes w))%nat) Hlen k
                                (f_equal (from_option id i) Hk)) Hn j Hj).
  split; [intros [= ->]; reflexivity | intros ->; reflexivity].
Qed.

Lemma Threshold_onScroll_selects_item_without_target_witness :
  unresolved (set_scrollactiveItems (Some [0; 1; 2]%nat) broken_world) 1
  ∧ ∃ w', Threshold.onScroll (sample_props false) ScrollEvent
            (set_scrollactiveItems (Some [0; 1; 2]%nat) broken_world)
          = Returned tt w'
        ∧ lastActiveItem w' = item 1
        ∧ ∀ j, j ∈ [0; 1; 2]%nat → flagged (sample_props false) w' j ↔ j = 1%nat.
Proof.
  split; [reflexivity|].
  apply (Threshold_onScroll_selects_item_without_target (sample_props false)
           ScrollEvent (set_scrollactiveItems (Some [0; 1; 2]%nat) broken_world)
           [0%nat] [2%nat] 1).
  - reflexivity.
  - reflexivity.
  - cbn. lia.
  - cbn. lra.
  - constructor; [|constructor]. unfold threshold_reached. vm_compute.
    intros H. apply H. reflexivity.
Defined.

(** X6: a check repeated at the same scroll position computes the same item,
    emits nothing, leaves [lastActiveItem] as it is and flags the same
    registered items; this holds for [onScroll] of both copies. *)
Theorem repeated_check_is_silent (p : Props) (ev ev' : Event) (w w1 : World)
    (items : list nat) :
  scrollactiveItems w = Some items →
  Forall (λ i, (i < length (nodes w))%nat) items →
  (Band.onScroll p ev w = Returned tt w1 →
   ∃ w2, Band.onScroll p ev' w1 = Returned tt w2
         ∧ emitted w2 = emitted w1
         ∧ lastActiveItem w2 = lastActiveItem w1
         ∧ ∀ i, i ∈ items → flagged p w2 i ↔ flagged p w1 i)
  ∧ (Threshold.onScroll p ev w = Returned tt w1 →
     ∃ w2, Threshold.onScroll p ev' w1 = Returned tt w2
           ∧ emitted w2 = emitted w1
           ∧ lastActiveItem w2 = lastActiveItem w1
           ∧ ∀ i, i ∈ items → flagged p w2 i ↔ flagged p w1 i).
Proof.
  intros Hitems Hrange.
  assert (Hin : ∀ (P : nat → Prop) `{∀ i, Decision (P i)} j,
             last_qualifying P items = Some j → (j < length (nodes w))%nat).
  { intros P ? j E. apply last_qualifying_elem_of in E as [E _].
    rewrite Forall_forall in Hrange. apply Hrange, E. }
  split.
  - rewrite Band_onScroll_eq, (Band_getCurrentItem_eq _ _ _ Hitems), band_scan.
    destruct (list_find (unresolved w) items) as [[k x]|] eqn:Efind; [discriminate|].
    rewrite foldl_choose_last.
    set (lq := last_qualifying (band_contains p w) items).
    intros [= <-].
    pose proof (Band_after_scan_checked p ev (from_option item null lq)
                  (unflag_all (activeClass p) items w)) as Hc.
    set (w1 := Band_after_scan p ev (from_option item null lq)
                 (unflag_all (activeClass p) items w)) in *.
    destruct (checked_resolve _ _ _ _ _ Hc) as (Hi1 & Hy1 & Hl1 & Hr1).
    rewrite Hitems in Hi1.
    rewrite Band_onScroll_eq, (Band_getCurrentItem_eq _ _ _ Hi1), band_scan.
    rewrite (list_find_unresolved_same w w1 _ Hr1), Efind, foldl_choose_last.
    assert (last_qualifying (band_contains p w1) items = lq) as ->.
    { unfold lq, last_qualifying. f_equal. apply list_filter_iff. intros i.
      apply band_contains_same; [apply Hr1 | exact Hy1]. }
    pose proof (Band_after_scan_checked p ev' (from_option item null lq)
                  (unflag_all (activeClass p) items w1)) as Hc2.
    eexists. split; [reflexivity|].
    destruct Hc as (Hn & _ & _ & _ & Hlast).
    destruct Hc2 as (Hn2 & _ & _ & _ & Hlast2).
    split; [|split; [congruence|]].
    + unfold Band_after_scan at 1. cbv zeta. rewrite emitted_flag_current.
      rewrite (unflag_all_only_nodes _ _ w1). cbn [lastActiveItem tell set_nodes].
      rewrite Hlast. rewrite decide_False by (intros H; apply H; reflexivity).
      unfold emitted. cbn. rewrite List.filter_app. cbn. apply app_nil_r.
    + intros i Hi.
      rewrite (flagged_after_scan p w1 _ items lq null eq_refl
                 ltac:(intros j Hj; rewrite Hl1; eapply Hin, Hj) Hn2 i Hi).
      rewrite (flagged_after_scan p w w1 items lq null eq_refl (Hin _ _) Hn i Hi).
      reflexivity.
  - rewrite (Threshold_onScroll_eq _ _ _ _ Hitems), foldl_choose_last.
    set (lq := last_qualifying (threshold_reached p w) items).
    intros [= <-].
    pose proof (Threshold_after_scan_checked p ev (from_option item undefined lq)
                  (unflag_all (activeClass p) items w)) as Hc.
    set (w1 := Threshold_after_scan p ev (from_option item undefined lq)
                 (unflag_all (activeClass p) items w)) in *.
    destruct (checked_resolve _ _ _ _ _ Hc) as (Hi1 & Hy1 & Hl1 & Hr1).
    rewrite Hitems in Hi1.
    rewrite (Threshold_onScroll_eq _ _ _ _ Hi1), foldl_choose_last.
    assert (last_qualifying (threshold_reached p w1) items = lq) as ->.
    { unfold lq, last_qualifying. f_equal. apply list_filter_iff. intros i.
      apply threshold_reached_same; [apply Hr1 | exact Hy1]. }
    pose proof (Threshold_after_scan_checked p ev' (from_option item undefined lq)
                  (unflag_all (activeClass p) items w1)) as Hc2.
    eexists. split; [reflexivity|].
    destruct Hc as (Hn & _ & _ & _ & Hlast).
    destruct Hc2 as (Hn2 & _ & _ & _ & Hlast2).
    split; [|split; [congruence|]].
    + unfold Threshold_after_scan at 1. cbv zeta. rewrite emitted_flag_current.
      rewrite (unflag_all_only_nodes _ _ w1). cbn [lastActiveItem set_nodes].
      rewrite Hlast. rewrite decide_False by (intros H; apply H; reflexivity).
      reflexivity.
    + intros i Hi.
      rewrite (flagged_after_scan p w1 _ items lq undefined eq_refl
                 ltac:(intros j Hj; rewrite Hl1; eapply Hin, Hj) Hn2 i Hi).
      rewrite (flagged_after_scan p w w1 items lq undefined eq_refl (Hin _ _) Hn i Hi).
      reflexivity.
Qed.

Lemma repeated_check_is_silent_witness :
  ∃ w1 w2,
    Band.onScroll (sample_props false) ScrollEvent (tracking_world 810)
      = Returned tt w1
    ∧ Band.onScroll (sample_props false) ScrollEvent w1 = Returned tt w2
    ∧ emitted w1 = [Emit ScrollEvent [item 1; item 0]]
    ∧ emitted w2 = emitted w1.
Proof.
  eexists. 
  match goal with |- ∃ w2, Band.onScroll ?p ?e ?w = Returned tt ?w1 ∧ _ =>
    assert (Hrun : Band.onScroll p e w = Returned tt w1) by (vm_compute; reflexivity);
    destruct (repeated_check_is_silent p e e w w1 [0; 1; 2]%nat eq_refl) as [HB _];
      [repeat constructor|];
    destruct (HB Hrun) as (w2 & Hrun2 & Hemit & _)
  end.
  exists w2. split; [exact Hrun|]. split; [exact Hrun2|].
  split; [reflexivity | exact Hemit].
Defined.

(** ** Mounting *)

(** X7: [mounted] of [src/scrollactive.vue] either ends with the discovery
    error, in the world it started from, or returns with the discovered items
    registered, the listener attached and the current item recorded; it never
    ends with a TypeError, because a registration that succeeded has resolved
    every target.  It emits one notification [(undefined, current, old)] when
    the current item differs from the recorded one, and none otherwise. *)
Theorem Band_mounted_outcome (p : Props) (w : World) :
  match list_find (unresolved w) (discovered w) with
  | Some (_, i) =>
      Band.mounted p w = Thrown (mkError (not_found_message (hash (node w i)))) w
  | None =>
      let cur := from_option item null
                   (last_qualifying (band_contains p w) (discovered w)) in
      ∃ w', Band.mounted p w = Returned tt w'
            ∧ scrollListener w' = true
            ∧ scrollactiveItems w' = Some (discovered w)
            ∧ lastActiveItem w' = cur
            ∧ emitted w' = emitted w ++
                (if decide (cur ≠ lastActiveItem w)
                 then [Emit NoEvent [cur; lastActiveItem w]] else [])
  end.
Proof.
  pose proof (setScrollactiveItems_outcome p w) as Hs.
  destruct (list_find (unresolved w) (discovered w)) as [[k x]|] eqn:Efind.
  { unfold Band.mounted, mbind, Js_bind. rewrite Hs. reflexivity. }
  unfold Band.mounted. unfold mbind at 1, Js_bind at 1. rewrite Hs.
  cbv beta iota zeta.
  set (w1 := bind_all (clickToScroll p) (discovered w)
               (set_scrollactiveItems (Some (discovered w)) w)).
  pose proof (bind_all_only_nodes (clickToScroll p) (discovered w)
                (set_scrollactiveItems (Some (discovered w)) w)) as Ho.
  fold w1 in Ho.
  assert (Hi1 : scrollactiveItems w1 = Some (discovered w)) by (rewrite Ho; reflexivity).
  assert (Hy1 : scrollY w1 = scrollY w) by (rewrite Ho; reflexivity).
  assert (Hl1 : lastActiveItem w1 = lastActiveItem w) by (rewrite Ho; reflexivity).
  assert (He1 : emitted w1 = emitted w) by (rewrite Ho; reflexivity).
  assert (Hr1 : ∀ i, resolve w1 i = resolve w i).
  { intros i. apply resolve_same; [unfold w1; rewrite hash_bind_all; reflexivity
                                   | rewrite Ho; reflexivity]. }
  unfold mbind at 1, Js_bind at 1.
  rewrite Band_onScroll_eq, (Band_getCurrentItem_eq _ _ _ Hi1), band_scan.
  rewrite (list_find_unresolved_same w w1 _ Hr1), Efind, foldl_choose_last.
  assert (last_qualifying (band_contains p w1) (discovered w)
          = last_qualifying (band_contains p w) (discovered w)) as ->.
  { unfold last_qualifying. f_equal. apply list_filter_iff. intros i.
    apply band_contains_same; [apply Hr1 | exact Hy1]. }
  set (cur := from_option item null
                (last_qualifying (band_contains p w) (discovered w))).
  eexists. split; [reflexivity|].
  pose proof (Band_after_scan_checked p NoEvent cur
                (unflag_all (activeClass p) (discovered w) w1))
    as (_ & _ & _ & Hi2 & Hlast2).
  split; [reflexivity|].
  split; [cbn; rewrite Hi2, (unflag_all_only_nodes _ _ w1); exact Hi1|].
  split; [exact Hlast2|].
  match goal with |- emitted ?x = _ =>
    change x with (attach (Band_after_scan p NoEvent cur
                             (unflag_all (activeClass p) (discovered w) w1))) end.
  rewrite emitted_attach. unfold Band_after_scan. cbv zeta.
  rewrite emitted_flag_current.
  rewrite (unflag_all_only_nodes _ _ w1). cbn [lastActiveItem tell set_nodes].
  rewrite Hl1.
  destruct (decide (cur ≠ lastActiveItem w)).
  - unfold emitted in *. cbn. rewrite !List.filter_app. cbn.
    rewrite app_nil_r, He1. reflexivity.
  - unfold emitted in *. cbn. rewrite !List.filter_app. cbn.
    rewrite !app_nil_r, He1. reflexivity.
Qed.

(** ** Animations, once more *)

Lemma run_frame_single (step : Closure → Q → Js unit) (h : nat) (c : Closure)
    (ts : Q) (w : World) :
  frames w = [(h, c)] →
  run_frame step h ts w = step c ts (set_frames (λ _, []) w).
Proof.
  intros Hf. unfold run_frame. rewrite Hf. cbn [list_find fst].
  rewrite decide_True by reflexivity. cbn [fmap option_fmap option_map prod_map].
  f_equal. unfold set_frames. rewrite Hf. cbn [drop_frame].
  rewrite filter_cons, decide_False by (cbn; intros H; apply H; reflexivity).
  reflexivity.
Qed.

(** X8: once a frame of an animation has run, the next animation replaces it:
    with [alwaysTrack] false, if the only scheduled callback runs as a frame
    that is not the last, its successor is recorded in [AFRequestID], and a
    following [scrollToTarget] or [scrollToTargetElement] cancels that
    successor, so that exactly one callback, the new one, is scheduled. *)
Theorem running_animation_is_replaced (p : Props) (w w1 w2 : World)
    (h : nat) (c : Closure) (ts : Q) :
  alwaysTrack p = false → frames w = [(h, c)] → completes p c ts = false →
  (∀ id, run_frame (Band.step p) h ts w = Returned tt w1 →
         Band.scrollToTarget p (VString id) w1 = Returned tt w2 →
         AFRequestID w1 = Some (nextHandle w)
         ∧ outstanding w1 = [nextHandle w]
         ∧ outstanding w2 = [S (nextHandle w)])
  ∧ (∀ i, run_frame (Threshold.step p) h ts w = Returned tt w1 →
          Threshold.scrollToTargetElement p (ClickEvent i) w1 = Returned tt w2 →
          AFRequestID w1 = Some (nextHandle w)
          ∧ outstanding w1 = [nextHandle w]
          ∧ outstanding w2 = [S (nextHandle w)]).
Proof.
  intros Htrack Hf Hc.
  assert (Hcont : ∀ w1, Returned tt (continued p c ts (set_frames (λ _, []) w))
                          = Returned tt w1 →
            AFRequestID w1 = Some (nextHandle w) ∧ outstanding w1 = [nextHandle w]
            ∧ nextHandle w1 = S (nextHandle w)).
  { intros w' [= <-]. repeat split. }
  split.
  - intros id Hrun1 Hrun2.
    rewrite (run_frame_single _ _ _ _ _ Hf), Band_step_eq in Hrun1.
    cbv zeta in Hrun1. rewrite Hc in Hrun1.
    destruct (Hcont _ Hrun1) as (Ha & Ho & Hn).
    split; [exact Ha|]. split; [exact Ho|].
    apply Band_scrollToTarget_restarts in Hrun2. unfold restarts in Hrun2.
    rewrite Htrack in Hrun2. destruct Hrun2 as (_ & _ & _ & _ & Hone).
    rewrite Hone, Hn; [reflexivity|].
    intros h' Hh'. rewrite Ho in Hh'. apply list_elem_of_singleton in Hh'.
    subst h'. exact Ha.
  - intros i Hrun1 Hrun2.
    rewrite (run_frame_single _ _ _ _ _ Hf), Threshold_step_eq in Hrun1.
    rewrite Hc in Hrun1.
    destruct (Hcont _ Hrun1) as (Ha & Ho & Hn).
    split; [exact Ha|]. split; [exact Ho|].
    apply Threshold_scrollToTargetElement_restarts in Hrun2. unfold restarts in Hrun2.
    rewrite Htrack in Hrun2. destruct Hrun2 as (_ & _ & _ & _ & Hone).
    rewrite Hone, Hn; [reflexivity|].
    intros h' Hh'. rewrite Ho in Hh'. apply list_elem_of_singleton in Hh'.
    subst h'. exact Ha.
Qed.

Lemma running_animation_is_replaced_witness :
  ∃ w0 w1 w2,
    Band.scrollToTarget (sample_props false) (VString "pricing") (tracking_world 0)
      = Returned tt w0
    ∧ run_frame (Band.step (sample_props false)) 0 1000 w0 = Returned tt w1
    ∧ Band.scrollToTarget (sample_props false) (VString "contact") w1
      = Returned tt w2
    ∧ outstanding w1 = [1%nat]
    ∧ outstanding w2 = [2%nat].
Proof.
  eexists _, _, _. split; [vm_compute; reflexivity|].
  split; [vm_compute; reflexivity|]. split; [vm_compute; reflexivity|].
  match goal with |- outstanding ?w1 = _ ∧ outstanding ?w2 = _ =>
    destruct (running_animation_is_replaced (sample_props false)
                (world_of (Band.scrollToTarget (sample_props false)
                             (VString "pricing") (tracking_world 0)))
                w1 w2 0%nat
                (session (tracking_world 0)
                   (Some (mkElement 800 800 (Some body_element))) (λ x, x))
                1000 eq_refl eq_refl eq_refl) as [HB _];
    destruct (HB "contact" ltac:(vm_compute; reflexivity)
                ltac:(vm_compute; reflexivity)) as (_ & H1 & H2)
  end.
  split; [exact H1 | exact H2].
Defined.

(** X9: teardown reaches only the recorded callback: a scheduled callback
    whose handle is not the one in [AFRequestID] (the first frame of an
    animation never is) stays scheduled after [beforeDestroy], pending
    timeouts stay pending, and such a timeout attaches the scroll listener
    again after the component was destroyed. *)
Theorem teardown_leaves_other_callbacks (p : Props) (w : World) :
  (∀ h c, (h, c) ∈ frames w → AFRequestID w ≠ Some h →
          (h, c) ∈ frames (world_of (beforeDestroy p w)))
  ∧ timers (world_of (beforeDestroy p w)) = timers w
  ∧ ((0 < timers w)%nat →
     scrollListener (world_of (beforeDestroy p w)) = false
     ∧ scrollListener (world_of (run_timeout (world_of (beforeDestroy p w)))) = true).
Proof.
  rewrite beforeDestroy_eq. cbn [world_of]. split; [|split; [reflexivity|]].
  - intros h c Hin Hne. cbn [frames cancel detach tell set_frames set_scrollListener
      AFRequestID].
    destruct (AFRequestID w) as [n|]; cbn [drop_frame]; [|exact Hin].
    apply list_elem_of_filter. split; [|exact Hin]. cbn. congruence.
  - intros Hpos. split; [reflexivity|]. apply run_timeout_attaches. exact Hpos.
Qed.

Lemma teardown_leaves_other_callbacks_witness :
  ∃ w0, Band.scrollToTarget (sample_props false) (VString "pricing")
          (tracking_world 0) = Returned tt w0
        ∧ (0%nat, session (tracking_world 0)
                    (Some (mkElement 800 800 (Some body_element))) (λ x, x))
          ∈ frames (world_of (beforeDestroy (sample_props false) w0)).
Proof.
  eexists. split; [vm_compute; reflexivity|].
  match goal with |- _ ∈ frames (world_of (beforeDestroy ?p ?w0)) =>
    destruct (teardown_leaves_other_callbacks p w0) as (Hkeep & _ & _) end.
  apply Hkeep; [vm_compute; left | vm_compute; discriminate].
Defined.

(** X10: with [alwaysTrack] false, a click handled by [scrollToTargetElement]
    moves the active class to the clicked item at once: among the registered
    items and the clicked one, exactly the clicked item is flagged when the
    handler returns; [lastActiveItem] is not updated and nothing is
    emitted. *)
Theorem Threshold_click_flags_clicked_item (p : Props) (w w' : World)
    (items : list nat) (i : nat) :
  alwaysTrack p = false → scrollactiveItems w = Some items →
  (i < length (nodes w))%nat →
  Threshold.scrollToTargetElement p (ClickEvent i) w = Returned tt w' →
  (∀ j, j ∈ items ∨ j = i → flagged p w' j ↔ j = i)
  ∧ lastActiveItem w' = lastActiveItem w
  ∧ emitted w' = emitted w.
Proof.
  intros Htrack Hitems Hi. rewrite Threshold_scrollToTargetElement_eq. cbv zeta.
  rewrite Htrack, Hitems.
  pose proof (Threshold_paused_only_nodes p i items (tell PreventDefault w)) as Ho.
  destruct (build_easing p _) as [e w1|err w1]; [|discriminate]. intros [= <-].
  split; [|split].
  - intros j Hj. unfold flagged.
    change (node (schedule ?c ?x) j) with (node x j).
    unfold Threshold_paused. rewrite Htrack.
    rewrite classList_flag, unflag_all_length. cbn [nodes cancel detach tell
      set_frames set_scrollListener].
    destruct (decide (j = i ∧ _)) as [[-> _]|Hne].
    + split; [reflexivity | intros _; set_solver].
    + rewrite classList_unflag_all.
      split; [|intros ->; tauto].
      intros [_ Hnot]. destruct Hj as [Hj| ->]; [|tauto].
      exfalso. apply (Hnot eq_refl Hj).
  - change (lastActiveItem (schedule ?c ?x)) with (lastActiveItem x).
    rewrite Ho. unfold paused. rewrite Htrack. reflexivity.
  - rewrite emitted_schedule. apply emitted_only_nodes in Ho. rewrite Ho.
    rewrite emitted_paused, emitted_tell. cbn. apply app_nil_r.
Qed.

Lemma Threshold_click_flags_clicked_item_witness :
  ∃ w', Threshold.scrollToTargetElement (sample_props false) (ClickEvent 2)
          (tracking_world 0) = Returned tt w'
        ∧ flagged (sample_props false) w' 2
        ∧ ¬ flagged (sample_props false) w' 0.
Proof.
  eexists. split; [vm_compute; reflexivity|].
  match goal with |- flagged ?p ?w' _ ∧ _ =>
    destruct (Threshold_click_flags_clicked_item p (tracking_world 0) w'
                [0; 1; 2]%nat 2%nat eq_refl eq_refl ltac:(cbn; lia)
                ltac:(vm_compute; reflexivity)) as (Hflag & _ & _) end.
  split.
  - apply Hflag; [right; reflexivity | reflexivity].
  - intros H. apply Hflag in H; [discriminate|]. left. repeat constructor.
Defined.

(** X11: when the easing library rejects the configured values, the error
    leaves the call after the tracker was paused: with [alwaysTrack] false,
    [scrollToTarget] and [scrollToTargetElement] end with that error, the
    scroll listener is detached, no frame was requested and no timeout is
    set that would attach the listener again. *)
Theorem rejected_easing_leaves_listener_detached (p : Props) (w : World) (err : Error) :
  alwaysTrack p = false → build_easing p w = Thrown err w →
  (∀ id, ∃ w', Band.scrollToTarget p (VString id) w = Thrown err w'
               ∧ scrollListener w' = false
               ∧ timers w' = timers w
               ∧ nextHandle w' = nextHandle w
               ∧ log w' = log w ++ [RemoveScrollListener;
                                    CancelAnimationFrame (AFRequestID w)])
  ∧ (∀ i, is_Some (scrollactiveItems w) →
          ∃ w', Threshold.scrollToTargetElement p (ClickEvent i) w = Thrown err w'
                ∧ scrollListener w' = false
                ∧ timers w' = timers w
                ∧ nextHandle w' = nextHandle w
                ∧ log w' = log w ++ [PreventDefault; RemoveScrollListener;
                                     CancelAnimationFrame (AFRequestID w)]).
Proof.
  intros Htrack He. split.
  - intros id. rewrite Band_scrollToTarget_eq. cbv zeta.
    rewrite build_easing_paused, He. eexists. split; [reflexivity|].
    unfold paused. rewrite Htrack. repeat split. cbn. rewrite <- app_assoc. reflexivity.
  - intros i [items Hitems]. rewrite Threshold_scrollToTargetElement_eq. cbv zeta.
    rewrite Htrack, Hitems.
    destruct (Threshold_paused_session p i i items w (λ x, x)) as [_ Hb].
    rewrite Hb, He. eexists. split; [reflexivity|].
    pose proof (Threshold_paused_only_nodes p i items (tell PreventDefault w)) as Ho.
    rewrite Ho. unfold paused. rewrite Htrack. repeat split.
    cbn. rewrite <- !app_assoc. reflexivity.
Qed.

Lemma rejected_easing_leaves_listener_detached_witness :
  ∃ w', Band.scrollToTarget
          (mkProps "is-active" 20 true 600 false "0,1") (VString "pricing")
          (tracking_world 0)
        = Thrown (mkError "bezier x values must be in [0, 1] range") w'
        ∧ scrollListener (tracking_world 0) = true
        ∧ scrollListener w' = false
        ∧ timers w' = 0%nat.
Proof.
  destruct (rejected_easing_leaves_listener_detached
              (mkProps "is-active" 20 true 600 false "0,1") (tracking_world 0)
              (mkError "bezier x values must be in [0, 1] range") eq_refl eq_refl)
    as [HB _].
  destruct (HB "pricing") as (w' & Hrun & Hl & Ht & _).
  exists w'. split; [exact Hrun|]. split; [reflexivity|]. split; [exact Hl | exact Ht].
Defined.

(** ** The clock of an animation *)

(** X12: [if (!start) start = timestamp] takes a start of 0 for a missing
    one.  A frame of a closure whose start is missing or 0 measures an elapsed
    time of 0 and starts the clock at its own timestamp; so when the first
    frame of an animation runs at timestamp 0, the second frame measures 0
    again, and the elapsed time of the later frames counts from the second
    frame.  With any other start [s] the elapsed time is [timestamp - s]. *)
Theorem clock_restarts_while_start_is_zero (p : Props) (c : Closure) :
  (∀ ts, (start c = None ∨ ∃ s, start c = Some s ∧ s == 0) →
         tick_start (tick p c ts) = ts ∧ elapsed p c ts == 0)
  ∧ (∀ ts s, start c = Some s → ¬ s == 0 →
             tick_start (tick p c ts) = s ∧ elapsed p c ts == ts - s)
  ∧ (start c = None →
     ∀ t2 t3,
       let c1 := restart c (tick_start (tick p c 0)) in
       let c2 := restart c1 (tick_start (tick p c1 t2)) in
       elapsed p c1 t2 == 0
       ∧ (¬ t2 == 0 → elapsed p c2 t3 == t3 - t2)).
Proof.
  assert (Hzero : ∀ c ts, (start c = None ∨ ∃ s, start c = Some s ∧ s == 0) →
            tick_start (tick p c ts) = ts ∧ elapsed p c ts == 0).
  { intros c' ts H. unfold elapsed, tick. cbn [tick_start].
    destruct H as [->|(s & -> & Hs)].
    - split; [reflexivity | lra].
    - apply Qeq_bool_iff in Hs. rewrite Hs. split; [reflexivity | lra]. }
  assert (Hset : ∀ c ts s, start c = Some s → ¬ s == 0 →
            tick_start (tick p c ts) = s ∧ elapsed p c ts == ts - s).
  { intros c' ts s Hs Hne. unfold elapsed, tick. cbn [tick_start]. rewrite Hs.
    destruct (Qeq_bool s 0) eqn:E; [apply Qeq_bool_iff in E; contradiction|].
    split; reflexivity. }
  split; [apply Hzero|]. split; [apply Hset|].
  intros Hnone t2 t3 c1 c2.
  destruct (Hzero c 0 (or_introl Hnone)) as [Hs0 _].
  assert (Hc1 : ∃ s, start c1 = Some s ∧ s == 0).
  { exists 0. subst c1. rewrite Hs0. split; reflexivity. }
  destruct (Hzero c1 t2 (or_intror Hc1)) as [Hs1 He1].
  split; [exact He1|].
  intros Hne. apply (Hset c2 t3 t2); [|exact Hne].
  subst c2. rewrite Hs1. reflexivity.
Qed.

Lemma clock_restarts_while_start_is_zero_witness :
  elapsed (sample_props false) (mkClosure 0 800 (λ x, x) (Some 0)) 300 == 0
  ∧ elapsed (sample_props false) (mkClosure 0 800 (λ x, x) (Some 300)) 600 == 300.
Proof.
  destruct (clock_restarts_while_start_is_zero (sample_props false)
              (mkClosure 0 800 (λ x, x) (Some 0))) as (Hzero & _ & _).
  destruct (clock_restarts_while_start_is_zero (sample_props false)
              (mkClosure 0 800 (λ x, x) (Some 300))) as (_ & Hset & _).
  split.
  - apply Hzero. right. exists 0. split; reflexivity.
  - destruct (Hset 600 300 eq_refl) as [_ H]; [discriminate|].
    rewrite H. reflexivity.
Defined.

(** X13: for a positive duration and timestamps that do not decrease, the
    argument that [step] passes to the easing function lies in [0, 1] on
    every frame of an animation: this holds on the first frame, and a frame
    hands to its successor a closure for which it holds again. *)
Theorem easing_argument_in_unit_interval (p : Props) (c : Closure) (t ts : Q) :
  0 < duration p →
  (start c = None → started_by c t)
  ∧ (started_by c t → t <= ts →
     0 <= tick_progressPercentage (tick p c ts)
     ∧ tick_progressPercentage (tick p c ts) <= 1
     ∧ tick_perTick (tick p c ts)
       = startingY c
         + easing c (tick_progressPercentage (tick p c ts)) * (difference c - offset p)
     ∧ started_by (restart c (tick_start (tick p c ts))) ts).
Proof.
  intros Hd. split.
  - intros H. unfold started_by. rewrite H. exact I.
  - intros Hs Hle.
    destruct (tick_in_range p c t ts Hd Hs Hle) as (H0 & H1 & Hnext).
    split; [exact H0|]. split; [exact H1|]. split; [reflexivity | exact Hnext].
Qed.

Lemma easing_argument_in_unit_interval_witness :
  0 <= tick_progressPercentage
         (tick (sample_props false) (mkClosure 0 800 (λ x, x) (Some 1000)) 5000)
  ∧ tick_progressPercentage
      (tick (sample_props false) (mkClosure 0 800 (λ x, x) (Some 1000)) 5000) <= 1.
Proof.
  destruct (easing_argument_in_unit_interval (sample_props false)
              (mkClosure 0 800 (λ x, x) (Some 1000)) 1000 5000 eq_refl) as [_ H].
  destruct H as (H0 & H1 & _).
  - split; [apply Qle_refl | intros E; vm_compute in E; discriminate].
  - discriminate.
  - split; assumption.
Defined.

(** ** cubicBezierArray *)

Lemma split_on_not_nil sep s : split_on sep s ≠ [].
Proof.
  destruct s as [|a r]; cbn; [discriminate|].
  destruct (decide (a = sep)); [discriminate|].
  destruct (split_on sep r); discriminate.
Qed.

Lemma join_on_cons sep x l :
  l ≠ [] → join_on sep (x :: l) = x +:+ String sep (join_on sep l).
Proof. destruct l; [congruence | reflexivity]. Qed.

Lemma join_on_push sep a x xs :
  join_on sep (String a x :: xs) = String a (join_on sep (x :: xs)).
Proof. destruct xs; reflexivity. Qed.

Lemma join_split sep s : join_on sep (split_on sep s) = s.
Proof.
  induction s as [|a r IH]; [reflexivity|].
  cbn [split_on]. destruct (decide (a = sep)) as [->|Hne].
  - rewrite join_on_cons by apply split_on_not_nil. rewrite IH. reflexivity.
  - pose proof (split_on_not_nil sep r) as Hnn.
    destruct (split_on sep r) as [|x xs]; [congruence|].
    rewrite join_on_push, IH. reflexivity.
Qed.

Lemma length_split sep s : length (split_on sep s) = S (count_char sep s).
Proof.
  induction s as [|a r IH]; [reflexivity|].
  cbn [split_on count_char]. destruct (decide (a = sep)).
  - cbn. rewrite IH. reflexivity.
  - pose proof (split_on_not_nil sep r) as Hnn.
    destruct (split_on sep r) as [|x xs]; [congruence|]. exact IH.
Qed.

Lemma pieces_split sep s : Forall (λ x, count_char sep x = 0%nat) (split_on sep s).
Proof.
  induction s as [|a r IH]; [repeat constructor|].
  cbn [split_on]. destruct (decide (a = sep)) as [->|Hne].
  - constructor; [reflexivity | exact IH].
  - destruct (split_on sep r) as [|x xs]; [repeat constructor; cbn|].
    + rewrite decide_False by exact Hne. reflexivity.
    + inversion IH as [|? ? Hx Hxs]; subst. constructor; [|exact Hxs].
      cbn. rewrite decide_False by exact Hne. exact Hx.
Qed.

(** X14: [cubicBezierArray] cuts the configured string at its commas: joining
    the entries with commas gives the string back, no entry contains a comma,
    and there is one entry more than there are commas; so the fourth argument
    of [bezierEasing] is defined exactly when the string has at least three
    commas. *)
Theorem cubicBezierArray_splits_at_commas (p : Props) :
  join_on ","%char (cubicBezierArray p) = bezierEasingValue p
  ∧ Forall (λ x, count_char ","%char x = 0%nat) (cubicBezierArray p)
  ∧ length (cubicBezierArray p) = S (count_char ","%char (bezierEasingValue p))
  ∧ (is_Some (cubicBezierArray p !! 3%nat)
     ↔ (3 ≤ count_char ","%char (bezierEasingValue p))%nat).
Proof.
  unfold cubicBezierArray. split; [apply join_split|].
  split; [apply pieces_split|]. split; [apply length_split|].
  rewrite lookup_lt_is_Some, length_split. lia.
Qed.

(** ** A whole animation *)

Lemma run_frames_idle (step : Closure → Q → Js unit) (tss : list Q) : ∀ h w,
  frames w = [] → run_frames step h tss w = Returned tt w.
Proof.
  induction tss as [|ts rest IH]; intros h w Hf; [reflexivity|].
  cbn [run_frames]. unfold mbind, Js_bind, gets, run_frame. rewrite Hf. cbn.
  destruct (AFRequestID w) as [n|]; [apply IH; exact Hf | reflexivity].
Qed.

Lemma run_frames_cons (step : Closure → Q → Js unit) h ts rest w :
  run_frames step h (ts :: rest) w =
    match run_frame step h ts w with
    | Returned _ w1 =>
        match AFRequestID w1 with
        | Some n => run_frames step n rest w1
        | None => Returned tt w1
        end
    | Thrown e w1 => Thrown e w1
    end.
Proof.
  cbn [run_frames]. unfold mbind, Js_bind, gets.
  destruct (run_frame step h ts w) as [[] w1|e w1]; [|reflexivity].
  destruct (AFRequestID w1); reflexivity.
Qed.

Lemma run_frames_written (p : Props) (step : Closure → Q → Js unit) :
  (∀ c ts w, completes p c ts = false → step c ts w = Returned tt (continued p c ts w)) →
  (∀ c ts w, written (world_of (step c ts w)) = written w ++ [tick_perTick (tick p c ts)]) →
  (∀ c ts w, completes p c ts = true → frames (world_of (step c ts w)) = frames w) →
  ∀ tss h c w, frames w = [(h, c)] →
    let w' := world_of (run_frames step h tss w) in
    written w' = written w ++ run_ticks p c tss
    ∧ (length (frames w') ≤ 1)%nat.
Proof.
  intros Hcont Hwrite Hdone.
  induction tss as [|ts rest IH]; intros h c w Hf; cbv zeta.
  { cbn. rewrite app_nil_r, Hf. split; [reflexivity | cbn; lia]. }
  cbn [run_ticks]. rewrite run_frames_cons, (run_frame_single _ _ _ _ _ Hf).
  set (w0 := set_frames (λ _, []) w).
  pose proof (Hwrite c ts w0) as Hw. change (written w0) with (written w) in Hw.
  destruct (Qlt_bool (tick_progress (tick p c ts)) (duration p)) eqn:Hlt.
  - assert (Hc : completes p c ts = false) by (unfold completes; rewrite Hlt; reflexivity).
    rewrite (Hcont _ _ _ Hc) in Hw |- *. cbn [world_of] in Hw.
    change (AFRequestID (continued p c ts w0)) with (Some (nextHandle w0)).
    cbv beta iota.
    destruct (IH (nextHandle w0) (restart c (tick_start (tick p c ts)))
                 (continued p c ts w0) eq_refl) as [IHw IHl].
    split; [|exact IHl].
    rewrite IHw, Hw, <- app_assoc. reflexivity.
  - assert (Hc : completes p c ts = true) by (unfold completes; rewrite Hlt; reflexivity).
    pose proof (Hdone c ts w0 Hc) as Hfr. change (frames w0) with (@nil (nat * Closure)) in Hfr.
    destruct (step c ts w0) as [[] w1|e w1]; cbn [world_of] in *.
    + assert (world_of (match AFRequestID w1 with
                        | Some n => run_frames step n rest w1
                        | None => Returned tt w1 end) = w1) as ->.
      { destruct (AFRequestID w1); [rewrite run_frames_idle by exact Hfr|]; reflexivity. }
      split; [exact Hw | rewrite Hfr; cbn; lia].
    + split; [exact Hw | rewrite Hfr; cbn; lia].
Qed.

(** X15: the frames of one animation, run in sequence by the environment
    from a world in which its first callback is the only scheduled one, pass
    to [window.scrollTo] exactly the positions [run_ticks] computes from the
    closure and the timestamps, up to and including the first completion
    frame, and at no time leave more than one callback scheduled; this holds
    for [step] of both copies. *)
Theorem animation_writes_run_ticks (p : Props) (tss : list Q) (h : nat)
    (c : Closure) (w : World) :
  frames w = [(h, c)] →
  (written (world_of (run_frames (Band.step p) h tss w)) = written w ++ run_ticks p c tss
   ∧ (length (frames (world_of (run_frames (Band.step p) h tss w))) ≤ 1)%nat)
  ∧ (written (world_of (run_frames (Threshold.step p) h tss w))
       = written w ++ run_ticks p c tss
     ∧ (length (frames (world_of (run_frames (Threshold.step p) h tss w))) ≤ 1)%nat).
Proof.
  intros Hf. split.
  - apply (run_frames_written p (Band.step p)); [| | |exact Hf].
    + intros c' ts w' Hc. rewrite Band_step_eq. cbv zeta. rewrite Hc. reflexivity.
    + intros c' ts w'. apply written_Band_step.
    + intros c' ts w' Hc. apply frames_Band_step_complete, Hc.
  - apply (run_frames_written p (Threshold.step p)); [| | |exact Hf].
    + intros c' ts w' Hc. rewrite Threshold_step_eq, Hc. reflexivity.
    + intros c' ts w'. apply written_Threshold_step.
    + intros c' ts w' Hc. apply frames_Threshold_step_complete, Hc.
Qed.

Lemma animation_writes_run_ticks_witness :
  ∃ w0, Band.scrollToTarget (sample_props false) (VString "pricing")
          (tracking_world 0) = Returned tt w0
        ∧ written (world_of (run_frames (Band.step (sample_props false)) 0
                               [1000; 1300; 1600; 1900] w0))
          = [0 # 600; 234000 # 600; 780].
Proof.
  eexists. split; [vm_compute; reflexivity|].
  match goal with |- written (world_of (run_frames _ _ ?tss ?w0)) = _ =>
    destruct (animation_writes_run_ticks (sample_props false) tss 0%nat
                (session (tracking_world 0)
                   (Some (mkElement 800 800 (Some body_element))) (λ x, x))
                w0 eq_refl) as [[HB _] _] end.
  rewrite HB. reflexivity.
Defined.

(** X16: [mounted] of the second copy either ends with the discovery error,
    in the world it started from, or returns with the discovered items
    registered, the listener attached and the current item recorded; on a
    fresh instance ([lastActiveItem] null) it emits nothing, whatever the
    scroll position and the items are. *)
Theorem Threshold_mounted_outcome (p : Props) (w : World) :
  match list_find (unresolved w) (discovered w) with
  | Some (_, i) =>
      Threshold.mounted p w
        = Thrown (mkError (not_found_message (hash (node w i)))) w
  | None =>
      ∃ w', Threshold.mounted p w = Returned tt w'
            ∧ scrollListener w' = true
            ∧ scrollactiveItems w' = Some (discovered w)
            ∧ lastActiveItem w' =
                from_option item undefined
                  (last_qualifying (threshold_reached p w) (discovered w))
            ∧ (lastActiveItem w = null → emitted w' = emitted w)
  end.
Proof.
  pose proof (setScrollactiveItems_outcome p w) as Hs.
  destruct (list_find (unresolved w) (discovered w)) as [[k x]|] eqn:Efind.
  { unfold Threshold.mounted, mbind, Js_bind. rewrite Hs. reflexivity. }
  set (w1 := bind_all (clickToScroll p) (discovered w)
               (set_scrollactiveItems (Some (discovered w)) w)) in *.
  pose proof (bind_all_only_nodes (clickToScroll p) (discovered w)
                (set_scrollactiveItems (Some (discovered w)) w)) as Ho.
  fold w1 in Ho.
  assert (Hi1 : scrollactiveItems w1 = Some (discovered w)) by (rewrite Ho; reflexivity).
  assert (Hy1 : scrollY w1 = scrollY w) by (rewrite Ho; reflexivity).
  assert (Hr1 : ∀ i, resolve w1 i = resolve w i).
  { intros i. apply resolve_same; [unfold w1; rewrite hash_bind_all; reflexivity
                                   | rewrite Ho; reflexivity]. }
  assert (Hrun : Threshold.mounted p w =
            Returned tt (attach (Threshold_after_scan p NoEvent
              (from_option item undefined
                 (last_qualifying (threshold_reached p w) (discovered w)))
              (unflag_all (activeClass p) (discovered w) w1)))).
  { unfold Threshold.mounted. unfold mbind at 1, Js_bind at 1. rewrite Hs.
    cbv beta iota. unfold mbind at 1, Js_bind at 1.
    rewrite (Threshold_onScroll_eq _ _ _ _ Hi1), foldl_choose_last.
    assert (last_qualifying (threshold_reached p w1) (discovered w)
            = last_qualifying (threshold_reached p w) (discovered w)) as ->.
    { unfold last_qualifying. f_equal. apply list_filter_iff. intros i.
      apply threshold_reached_same; [apply Hr1 | exact Hy1]. }
    reflexivity. }
  eexists. split; [exact Hrun|].
  pose proof (Threshold_after_scan_checked p NoEvent
                (from_option item undefined
                   (last_qualifying (threshold_reached p w) (discovered w)))
                (unflag_all (activeClass p) (discovered w) w1))
    as (_ & _ & _ & Hi2 & Hlast2).
  split; [reflexivity|].
  split; [cbn; rewrite Hi2, (unflag_all_only_nodes _ _ w1); exact Hi1|].
  split; [exact Hlast2|].
  intros Hnull. apply (Threshold_mounted_silent p w _ Hnull Hrun).
Qed.

Lemma Threshold_mounted_outcome_witness :
  ∃ w', Threshold.mounted (sample_props false) (sample_world 810) = Returned tt w'
        ∧ lastActiveItem w' = item 1
        ∧ emitted w' = [].
Proof.
  pose proof (Threshold_mounted_outcome (sample_props false) (sample_world 810)) as H.
  assert (E : list_find (unresolved (sample_world 810)) (discovered (sample_world 810))
              = None) by (vm_compute; reflexivity).
  rewrite E in H. destruct H as (w' & Hrun & _ & _ & Hlast & Hsilent).
  exists w'. split; [exact Hrun|]. split.
  - rewrite Hlast. vm_compute. reflexivity.
  - apply Hsilent. reflexivity.
Defined.
